(** * ViennaCL: autotuner driver, kernel-body emitter and ILUT factorisation

    A shallow embedding of three pieces of the ViennaCL sources and the
    properties established about them:

    - [Blas3]     : examples/autotuner/blas3.cpp
                    ([blas3_config], [fill_matrix], [run_autotune], [main]);
    - [Generator] : viennacl/generator/tokens_management.hpp
                    ([body_code::value] and its helpers);
    - [Ilut]      : viennacl/linalg/detail/ilu/ilut.hpp
                    ([ilut_tag], [setup_w], [precondition],
                    [ilut_precond::init]).

    Conventions.  [unsigned int] values are numbers in [N] (or [Z]) with the
    reduction modulo 2^32 written where the source converts or increments;
    [std::vector] is a [list] indexed with [!!]; [std::map] is an association
    list kept in ascending key order, which is the order its iterators
    visit; an access whose behaviour C++ leaves undefined yields an explicit
    [undefined] result instead of a value. *)

From stdpp Require Import base list strings numbers gmap.
From Stdlib Require Import Ascii String DecimalString QArith Qcanon.
From Equations Require Import Equations.

Local Open Scope string_scope.
Local Open Scope list_scope.

(** ** Shared helpers *)

(** Conversion to [unsigned int]. *)
Definition to_unsigned_int (z : Z) : Z := (z mod 2 ^ 32)%Z.

(** The line feed character, written \n in the sources. *)
Definition LF : string := String "010"%char EmptyString.

(** [operator<<] on an unsigned number: its decimal digits. *)
Definition to_string (n : N) : string := NilEmpty.string_of_uint (N.to_uint n).

(** ** examples/autotuner/blas3.cpp *)
Module Blas3.

(** The template argument [NumericT] of [run_autotune] and [fill_matrix]. *)
Inductive scalar_t := float | double.

Definition sizeof (s : scalar_t) : N :=
  match s with float => 4%N | double => 8%N end.

(** What C++ leaves undefined on the paths of this file. *)
Inductive undefined_behaviour :=
| vector_subscript (index size : nat)   (* std::vector::operator[] past the end *)
| atoi_overflow (text : string)         (* atoi on a number outside int *)
| ublas_subscript (i j : N).            (* ublas::matrix::operator() out of range, NDEBUG *)

(** *** [atoi] *)

(** The C library's [atoi]: white space, an optional sign, then decimal
    digits up to the first other character.  A value that does not fit
    [int] is undefined. *)
Definition isspace (c : ascii) : bool :=
  let n := N_of_ascii c in ((n =? 32) || ((9 <=? n) && (n <=? 13)))%N.

Definition digit_value (c : ascii) : option Z :=
  let n := N_of_ascii c in
  if ((48 <=? n) && (n <=? 57))%N then Some (Z.of_N n - 48)%Z else None.

Fixpoint skip_space (s : string) : string :=
  match s with
  | String c s' => if isspace c then skip_space s' else s
  | EmptyString => s
  end.

Fixpoint digits (acc : Z) (s : string) : Z :=
  match s with
  | String c s' =>
    match digit_value c with
    | Some d => digits (10 * acc + d) s'
    | None => acc
    end
  | EmptyString => acc
  end.

Definition atoi (text : string) : undefined_behaviour + Z :=
  let value :=
    match skip_space text with
    | String "-"%char s => (- digits 0 s)%Z
    | String "+"%char s => digits 0 s
    | s => digits 0 s
    end in
  if ((- 2 ^ 31 <=? value) && (value <? 2 ^ 31))%Z then inr value
  else inl (atoi_overflow text).

(** *** Host matrices and [fill_matrix] *)

(** A dense host matrix ([boost::numeric::ublas::matrix]).  An element is
    [None] until it is first written (the constructor leaves it
    indeterminate).  Values are the exact quotients; finite floating-point
    numbers are rationals, and rounding to nearest keeps a quotient of
    [0 <= r <= m] inside the closed unit interval. *)
Record matrix := {
  size1 : N;
  size2 : N;
  elements : N → N → option Qc
}.

Definition new_matrix (s1 s2 : N) : matrix :=
  {| size1 := s1; size2 := s2; elements := fun _ _ => None |}.

(** [m(i,j) = v] *)
Definition write (m : matrix) (i j : N) (v : Qc) : undefined_behaviour + matrix :=
  if ((i <? size1 m) && (j <? size2 m))%N
  then inr {| size1 := size1 m; size2 := size2 m;
              elements := fun i' j' =>
                if ((i' =? i) && (j' =? j))%N then Some v else elements m i' j' |}
  else inl (ublas_subscript i j).

(** The state the loops of [fill_matrix] work on: the three host matrices
    and the number of [rand()] calls made since [srand]. *)
Record fill_state := {
  cpu_A : matrix;
  cpu_B : matrix;
  cpu_C : matrix;
  rand_calls : nat
}.

Section FillMatrix.
(** [RAND_MAX] and the values [rand()] returns after [srand(time(NULL))],
    in call order: both belong to the C library. *)
Variable RAND_MAX : Z.
Variable rand : nat → Z.

(** [static_cast<T>(rand()) / static_cast<T>(RAND_MAX)] *)
Definition rand_quotient (r : Z) : Qc :=
  Q2Qc (inject_Z r / inject_Z RAND_MAX).

(** The body of the inner loop, lines 57-59. *)
Definition fill_body (i j : N) (s : fill_state) : undefined_behaviour + fill_state :=
  match write (cpu_A s) i j 0%Qc with
  | inl u => inl u
  | inr a =>
    match write (cpu_B s) i j (rand_quotient (rand (rand_calls s))) with
    | inl u => inl u
    | inr b =>
      match write (cpu_C s) i j (rand_quotient (rand (S (rand_calls s)))) with
      | inl u => inl u
      | inr c => inr {| cpu_A := a; cpu_B := b; cpu_C := c;
                        rand_calls := S (S (rand_calls s)) |}
      end
    end
  end.

(** [for(j ; j<A.size2() ; ++j)] with [n] iterations left. *)
Fixpoint fill_columns (n : nat) (i j : N) (s : fill_state)
  : undefined_behaviour + fill_state :=
  match n with
  | O => inr s
  | S n' =>
    match fill_body i j s with
    | inl u => inl u
    | inr s' => fill_columns n' i (N.succ j) s'
    end
  end.

(** [for(i ; i<A.size1() ; ++i)] with [n] iterations left. *)
Fixpoint fill_rows (n : nat) (cols : N) (i : N) (s : fill_state)
  : undefined_behaviour + fill_state :=
  match n with
  | O => inr s
  | S n' =>
    match fill_columns (N.to_nat cols) i 0%N s with
    | inl u => inl u
    | inr s' => fill_rows n' cols (N.succ i) s'
    end
  end.

(** [fill_matrix(A, B, C)], given the dimensions of the three device
    matrices.  The result holds the host matrices that [viennacl::copy]
    transfers to [A], [B] and [C]; note the dimensions of [cpu_C]
    (line 52) and the loop bounds, which are those of [A] for all three. *)
Definition fill_matrix (A B C : N * N) : undefined_behaviour + fill_state :=
  fill_rows (N.to_nat (fst A)) (snd A) 0%N
    {| cpu_A := new_matrix (fst A) (snd A);
       cpu_B := new_matrix (fst B) (snd B);
       cpu_C := new_matrix (fst C) (fst C);
       rand_calls := O |}.
End FillMatrix.

(** *** The tuning driver [run_autotune] *)

(** The device matrices of one round. *)
Inductive mat_id := vcl_A | vcl_B | vcl_C.

(** The symbolic statement handed to the generator: [generator::matrix]
    wrappers combined with [generator::trans], [generator::prod] and
    [operator=]. *)
Inductive symbolic :=
| sym_matrix (m : mat_id)
| trans (x : symbolic)
| prod (x y : symbolic)
| assign (x y : symbolic).

(** The expression kinds named on lines 115-134. *)
Inductive gemm_kind := gemmAA | gemmTA | gemmAT | gemmTT.

(** [viennacl::generator::autotune::inc] *)
Inductive inc := mul_by_two | add_one.

Record tuning_param := {
  param_name : string;
  param_min : N;
  param_max : N;
  param_inc : inc
}.

(** [conf] after the ten calls of [add_tuning_param], lines 77-86. *)
Definition conf : list tuning_param :=
  [ {| param_name := "ml"; param_min := 16; param_max := 256; param_inc := mul_by_two |};
    {| param_name := "kl"; param_min := 16; param_max := 256; param_inc := mul_by_two |};
    {| param_name := "nl"; param_min := 16; param_max := 256; param_inc := mul_by_two |};
    {| param_name := "ms"; param_min := 2; param_max := 16; param_inc := mul_by_two |};
    {| param_name := "ks"; param_min := 2; param_max := 16; param_inc := mul_by_two |};
    {| param_name := "ns"; param_min := 2; param_max := 16; param_inc := mul_by_two |};
    {| param_name := "vector"; param_min := 1; param_max := 4; param_inc := mul_by_two |};
    {| param_name := "lhs_storage"; param_min := 1; param_max := 1; param_inc := add_one |};
    {| param_name := "rhs_storage"; param_min := 0; param_max := 0; param_inc := add_one |};
    {| param_name := "unroll"; param_min := 1; param_max := 1; param_inc := mul_by_two |} ]%N.

(** *** [blas3_config] *)

(** The arguments [create_profile] passes to the constructor of
    [matrix_product_profile] (declared in the generator headers), in
    order. *)
Record profile_t := {
  ml : N; kl : N; nl : N;
  ms : N; ks : N; ns : N;
  lhs_storage : bool; rhs_storage : bool;
  vector : N;
  unroll : N
}.

(** [std::out_of_range], thrown by [std::map::at] on a missing key. *)
Inductive out_of_range := std_out_of_range.

(** [params.at(name).current()], the map holding the current value of
    every tuning parameter. *)
Definition at_current (params : gmap string N) (name : string) : out_of_range + N :=
  match params !! name with
  | Some current => inr current
  | None => inl std_out_of_range
  end.

(** [blas3_config::create_profile], lines 30-36. *)
Definition create_profile (params : gmap string N) : out_of_range + profile_t :=
  match at_current params "ml", at_current params "kl", at_current params "nl",
        at_current params "ms", at_current params "ks", at_current params "ns",
        at_current params "lhs_storage", at_current params "rhs_storage",
        at_current params "vector", at_current params "unroll" with
  | inr ml, inr kl, inr nl, inr ms, inr ks, inr ns, inr lhs, inr rhs, inr vector, inr unroll =>
    inr {| ml := ml; kl := kl; nl := nl; ms := ms; ks := ks; ns := ns;
           lhs_storage := negb (lhs =? 0)%N; rhs_storage := negb (rhs =? 0)%N;
           vector := vector; unroll := unroll |}
  | _, _, _, _, _, _, _, _, _, _ => inl std_out_of_range
  end.

(** [blas3_config<ScalarType>::is_invalid], lines 37-40;
    [profile_t::is_invalid] is declared with the profile. *)
Definition is_invalid {device : Type} (profile_is_invalid : profile_t → device → N → bool)
    (ScalarType : scalar_t) (dev : device) (params : gmap string N)
  : out_of_range + bool :=
  match create_profile params with
  | inl e => inl e
  | inr prof => inr (profile_is_invalid prof dev (sizeof ScalarType))
  end.

(** [rounds_config], lines 92-94: (problem size, number to keep). *)
Definition rounds_config : list (N * N) := [ (512, 70); (4096, 20) ]%N.

Section Autotune.
(** [matrix_product_profile] is declared in the generator headers; the
    state of the OpenCL device and of the clock is [world]. *)
Context {profile world : Type}.

(** [timings_t]: a [std::map<double, profile>], listed in iteration
    order, that is by ascending time. *)
Definition timings_t : Type := list (Qc * profile).

(** The last argument of [autotune::benchmark]: the whole parameter
    space, or an explicit list of profiles. *)
Inductive candidates :=
| from_config (c : list tuning_param)
| from_profiles (l : list profile).

(** One call of [autotune::benchmark] (the timing table, passed by
    reference, apart). *)
Record benchmark_call := {
  operation : symbolic;
  kind : gemm_kind * N;
  source : candidates;
  operands : fill_state
}.

(** What the driver does to its surroundings, in order. *)
Inductive event :=
| timings_clear
| matrix_alloc (m : mat_id) (s1 s2 : N)
| device_copy (m : mat_id) (cpu : matrix)
| backend_finish
| benchmark_run (c : benchmark_call)
| fastest_firsts_clear
| fastest_firsts_push_back (p : profile).

Record tuner_state := {
  timings : timings_t;
  fastest_firsts : list profile;
  device : world;
  trace : list event
}.

(** [autotune::benchmark] compiles and times kernels on the device: its
    result is whatever the hardware gives.  [srand_time] is the sequence
    [rand()] yields once [srand(time(NULL))] has run in that world. *)
Variable benchmark : world → benchmark_call → timings_t → timings_t * world.
Variable RAND_MAX : Z.
Variable srand_time : world → nat → Z.

(** Lines 138-145.  [position] is [std::distance(timings.begin(), itt)],
    [n] its conversion to [unsigned int]. *)
Fixpoint keep_loop (n_keep : N) (position : N) (itt : timings_t)
    (st : tuner_state) : tuner_state :=
  match itt with
  | [] => st
  | (_, p) :: itt' =>
    let n := (position mod 2 ^ 32)%N in
    if (n_keep <? n)%N then st (* break *)
    else keep_loop n_keep (N.succ position) itt'
           {| timings := timings st;
              fastest_firsts := fastest_firsts st ++ [p];
              device := device st;
              trace := trace st ++ [fastest_firsts_push_back p] |}
  end.

(** The statement and kind selected on lines 112-135 (the same in both
    branches of [k==0]). *)
Definition statement (is_lhs_trans is_rhs_trans : bool) : symbolic * gemm_kind :=
  let A := sym_matrix vcl_A in
  let B := sym_matrix vcl_B in
  let C := sym_matrix vcl_C in
  if is_lhs_trans then
    if is_rhs_trans then (assign A (prod (trans B) (trans C)), gemmTT)
    else (assign A (prod (trans B) C), gemmTA)
  else
    if is_rhs_trans then (assign A (prod B (trans C)), gemmAT)
    else (assign A (prod B C), gemmAA).

(** The body of the loop over [rounds_config], lines 97-145, for the
    entry at [position]. *)
Definition round (NumericT : scalar_t) (is_lhs_trans is_rhs_trans : bool)
    (position : N) (it : N * N) (st : tuner_state)
  : undefined_behaviour + tuner_state :=
  let k := (position mod 2 ^ 32)%N in
  let size := fst it in
  let n_keep := snd it in
  match fill_matrix RAND_MAX (srand_time (device st))
          (size, size) (size, size) (size, size) with
  | inl u => inl u
  | inr filled =>
    let c := {| operation := fst (statement is_lhs_trans is_rhs_trans);
                kind := (snd (statement is_lhs_trans is_rhs_trans), sizeof NumericT);
                source := if (k =? 0)%N then from_config conf
                          else from_profiles (fastest_firsts st);
                operands := filled |} in
    let '(timed, w) := benchmark (device st) c [] in
    inr (keep_loop n_keep 0 timed
      {| timings := timed;
         fastest_firsts := [];
         device := w;
         trace := trace st ++
           [ timings_clear;
             matrix_alloc vcl_A size size;
             matrix_alloc vcl_B size size;
             matrix_alloc vcl_C size size;
             device_copy vcl_A (cpu_A filled);
             device_copy vcl_B (cpu_B filled);
             device_copy vcl_C (cpu_C filled);
             backend_finish;   (* end of fill_matrix *)
             backend_finish;   (* line 110 *)
             benchmark_run c;
             fastest_firsts_clear;
             backend_finish ] |})
  end.

(** The loop over a list of rounds, from the entry at [position]. *)
Fixpoint rounds_loop (NumericT : scalar_t) (is_lhs_trans is_rhs_trans : bool)
    (position : N) (rounds : list (N * N)) (st : tuner_state)
  : undefined_behaviour + tuner_state :=
  match rounds with
  | [] => inr st
  | it :: rounds' =>
    match round NumericT is_lhs_trans is_rhs_trans position it st with
    | inl u => inl u
    | inr st' =>
      rounds_loop NumericT is_lhs_trans is_rhs_trans (N.succ position) rounds' st'
    end
  end.

Definition initial_state (w : world) : tuner_state :=
  {| timings := []; fastest_firsts := []; device := w; trace := [] |}.

(** [run_autotune<NumericT>(is_lhs_trans, is_rhs_trans)] on a schedule. *)
Definition run_rounds (NumericT : scalar_t) (is_lhs_trans is_rhs_trans : bool)
    (rounds : list (N * N)) (w : world) : undefined_behaviour + tuner_state :=
  rounds_loop NumericT is_lhs_trans is_rhs_trans 0 rounds (initial_state w).

(** [run_autotune<NumericT>(is_lhs_trans, is_rhs_trans)] as written. *)
Definition run_autotune (NumericT : scalar_t) (is_lhs_trans is_rhs_trans : bool)
    (w : world) : undefined_behaviour + tuner_state :=
  run_rounds NumericT is_lhs_trans is_rhs_trans rounds_config w.

(** The benchmark calls of a trace, in order. *)
Definition benchmark_calls (t : list event) : list benchmark_call :=
  omap (fun e => match e with benchmark_run c => Some c | _ => None end) t.

(** *** The command line: [main] *)

(** What [main] reads of an OpenCL device. *)
Record device_info := {
  dev_name : string;
  vendor_id : N
}.

(** How the process ends. *)
Inductive status :=
| exit (code : Z)                      (* a call of exit *)
| returned (code : Z)                  (* control reaches the end of main *)
| undefined (u : undefined_behaviour).

Record outcome := {
  cout : list string;                  (* lines written to std::cout *)
  cerr : list string;                  (* lines written to std::cerr *)
  tuning : list event;                 (* what run_autotune did *)
  result : status
}.

(** Selecting a platform context and a device changes the device state. *)
Variable switch_context : nat → world → world.
Variable switch_device : device_info → world → world.

(** [v[i]] on a [std::vector]. *)
Definition subscript {A} (v : list A) (i : nat) : undefined_behaviour + A :=
  match v !! i with
  | Some x => inr x
  | None => inl (vector_subscript i (List.length v))
  end.

(** The [switch(layout)] of lines 187-213: the line it prints and the
    instance of [run_autotune] it calls, if any. *)
Definition select_run (scalartype : string)
    (is_lhs_trans is_rhs_trans : bool) : option (scalar_t * bool * bool) :=
  if String.eqb scalartype "float" then Some (float, is_lhs_trans, is_rhs_trans)
  else if String.eqb scalartype "double" then Some (double, is_lhs_trans, is_rhs_trans)
  else None.

Definition switch_layout (layout : Z) (scalartype : string)
  : list string * option (scalar_t * bool * bool) :=
  match layout with
  | 0%Z => (["====== Step 1 : AA ====="], select_run scalartype false false)
  | 1%Z => (["====== Step 3 : TA ====="], select_run scalartype true false)
  | 2%Z => (["====== Step 2 : AT ====="], select_run scalartype false true)
  | 3%Z => (["====== Step 4 : TT ====="], select_run scalartype true true)
  | _ => ([], None)
  end.

(** Lines 175-215: the requested device has been reached. *)
Definition tune_device (layout : Z) (scalartype : string)
    (it : device_info) (w : world) : outcome :=
  let w := switch_device it w in
  let header :=
    [ "-------------------";
      "Recording timings for : " +:+ dev_name it;
      "Vendor ID : " +:+ to_string (vendor_id it);
      "Matrix - Matrix Multiplication ";
      "-------------------";
      " Scalartype : " +:+ scalartype;
      "-------------------" ] in
  let '(step, call) := switch_layout layout scalartype in
  match call with
  | None =>
    {| cout := header ++ step; cerr := []; tuning := []; result := exit 0 |}
  | Some (NumericT, is_lhs_trans, is_rhs_trans) =>
    match run_autotune NumericT is_lhs_trans is_rhs_trans w with
    | inl u =>
      {| cout := header ++ step; cerr := []; tuning := []; result := undefined u |}
    | inr st =>
      {| cout := header ++ step; cerr := []; tuning := trace st; result := exit 0 |}
    end
  end.

(** Lines 172-218: the loop over the devices of one platform.  It ends
    the process at the requested device, or hands on the counter. *)
Fixpoint devices_loop (requested_device layout : Z) (scalartype : string)
    (dev : list device_info) (current_device : Z) (w : world) : outcome + Z :=
  match dev with
  | [] => inr current_device
  | it :: dev' =>
    if (current_device =? requested_device)%Z
    then inl (tune_device layout scalartype it w)
    else devices_loop requested_device layout scalartype dev'
           (to_unsigned_int (current_device + 1)) w
  end.

(** Lines 164-221: the loop over the platforms, [k] being the index of
    the first of [platforms]. *)
Fixpoint platforms_loop (requested_device layout : Z) (scalartype : string)
    (platforms : list (list device_info)) (k : nat) (current_device : Z)
    (w : world) : outcome :=
  match platforms with
  | [] => {| cout := []; cerr := []; tuning := []; result := returned 0 |}
  | dev :: platforms' =>
    let w := switch_context k w in
    match devices_loop requested_device layout scalartype dev current_device w with
    | inl o => o
    | inr current_device' =>
      platforms_loop requested_device layout scalartype platforms' (S k)
        current_device' w
    end
  end.

Definition stopped (u : undefined_behaviour) : outcome :=
  {| cout := []; cerr := []; tuning := []; result := undefined u |}.

(** [main(argc, argv)]: [args] is the argument vector (so [argc] is its
    length), [platforms] the devices of each OpenCL platform. *)
Definition main (args : list string) (platforms : list (list device_info))
    (w : world) : outcome :=
  let argc := List.length args in
  if (argc <? 3)%nat then
    {| cout := [];
       cerr := ["USAGE : PROGRAM_NAME DEVICE LAYOUT SCALARTYPE"];
       tuning := [];
       result := exit 1 |}
  else
    match subscript args 1 with
    | inl u => stopped u
    | inr a1 =>
    match atoi a1 with
    | inl u => stopped u
    | inr device_number =>
    match subscript args 2 with
    | inl u => stopped u
    | inr a2 =>
    match atoi a2 with
    | inl u => stopped u
    | inr layout_number =>
    match subscript args 3 with
    | inl u => stopped u
    | inr scalartype =>
      platforms_loop (to_unsigned_int device_number)
        (to_unsigned_int layout_number) scalartype platforms 0 0%Z w
    end end end end end.
End Autotune.

End Blas3.

(** ** viennacl/generator/tokens_management.hpp *)
Module Generator.

Section BodyCode.
(** The symbolic leaves (vectors, matrices, scalars, ...) are declared in
    symbolic_types.hpp. *)
Context {symbol : Type}.

(** The C++ types the generator computes with: expression trees, type
    lists, and the tokens of lines 40-69. *)
Inductive type :=
| NullType
| symbolic (s : symbol)
| compound_node (LHS OP RHS : type)
| repeater_impl (Bound Expressions : type)
| typelist (Head Tail : type)
| MatMatToken (Expr OP Assigned : type)
| MatVecToken (Expr OP Assigned : type)
| InProdToken (Expr : type) (NestedLevel : N)
| ArithmeticToken (Expr : type).

(** A [template<class> class Pred]. *)
Definition predicate : Type := type → bool.

(** [TList::Head] (a type without this member does not compile). *)
Definition Head (TList : type) : type :=
  match TList with
  | typelist Head _ => Head
  | _ => NullType
  end.

(** The state a string-valued helper of the other headers could keep
    between two calls.  A helper returns its text and the next state. *)
Context {hidden : Type}.
Definition emitter : Type := hidden → string * hidden.

(** Predicates and type functions of the headers included on lines 26-31. *)
Variable is_assignment : predicate.
Variable is_symbolic_vector : predicate.
Variable is_symbolic_matrix : predicate.
Variable is_symbolic_gpu_scalar : predicate.
Variable is_assignment_compound : predicate.
Variable is_inner_product_impl : predicate.
Variable is_inner_product_leaf : predicate.
Variable is_product_leaf : predicate.
Variable is_null_type : predicate.
Variable or_is : predicate → predicate → predicate.
Variable get_type_if : type → type → bool → type.
Variable get_operations_from_expressions : type → type.
Variable extract_if : type → predicate → type.
Variable extract_if_unique : type → predicate → type.
Variable count_if : type → predicate → N.
Variable no_duplicates : type → type.
Variable expression_type : type → type.

(** The functions of those headers that return kernel text. *)
Variable make_expression_code : type → string → emitter.  (* make_expression_code<T>::value(s) *)
Variable name : type → emitter.                           (* Bound::name() *)
Variable declarations_of : type → emitter.                (* T::declarations() *)
Variable assignements_of : type → emitter.                (* T::assignements() *)
Variable internal_size_expression : type → emitter.       (* VecExpr::internal_size_expression() *)
Variable make_code_value : type → emitter.                (* make_code<T>::value() *)
Variable make_code_sum : type → emitter.                  (* make_code<T>::sum() *)
Variable make_code_reduction : type → emitter.            (* make_code<T>::reduction() *)

(** *** Traits, lines 74-116 *)

Definition is_vector_assignment : predicate := fun T =>
  match T with
  | compound_node LHS OP RHS => is_assignment OP && is_symbolic_vector LHS
  | repeater_impl _ _ => true
  | _ => false
  end.

Definition is_scalar_assignment : predicate := fun T =>
  match T with
  | compound_node LHS OP RHS => is_assignment OP && is_symbolic_gpu_scalar LHS
  | _ => false
  end.

Fixpoint get_operations_lhs (T : type) : type :=
  match T with
  | typelist Head Tail => typelist (get_operations_lhs Head) (get_operations_lhs Tail)
  | compound_node LHS _ _ => if is_assignment_compound T then LHS else NullType
  | _ => NullType
  end.

(** *** [body_code], lines 123-289 *)

Definition requires_vector_access : predicate := fun T =>
  is_vector_assignment T || is_inner_product_impl T.

(** Modelled from the spec: [typelist_utils::ForEach] is declared in
    meta_tools/typelist.hpp, which is not among the sources; it runs the
    functor on every element of the type list, first to last, which is the
    traversal order the specification asks to keep. *)
Fixpoint ForEach {S : Type} (functor : type → S → S) (TList : type) (s : S) : S :=
  match TList with
  | typelist Head Tail => ForEach functor Tail (functor Head s)
  | _ => s
  end.

(** The arguments [fill_expression_updates::functor] passes by reference,
    next to the state of the helpers. *)
Record updates_state := {
  generated_code : string;
  nested_repeats_counter : N;
  helpers : hidden
}.

(** [generated_code += e()] *)
Definition append (e : emitter) (s : updates_state) : updates_state :=
  let '(text, h) := e (helpers s) in
  {| generated_code := generated_code s +:+ text;
     nested_repeats_counter := nested_repeats_counter s;
     helpers := h |}.

Definition append_string (text : string) (s : updates_state) : updates_state :=
  {| generated_code := generated_code s +:+ text;
     nested_repeats_counter := nested_repeats_counter s;
     helpers := helpers s |}.

(** [fill_expression_updates<TList, Pred>::functor<Tree>::execute], lines
    138-165, together with the [ForEach] it instantiates on itself. *)
Fixpoint functor_execute (Pred : predicate) (Tree : type) (s : updates_state)
  : updates_state :=
  match Tree with
  | repeater_impl Bound Expressions =>
    let repeater_name := "Repeat" +:+ to_string (nested_repeats_counter s) in
    if (0 <? count_if Expressions Pred)%N then
      let '(bound_name, h) := name Bound (helpers s) in
      let s :=
        {| generated_code := generated_code s +:+
             ("for(int " +:+ repeater_name +:+ " = 0 ; " +:+ repeater_name +:+ " < "
              +:+ bound_name +:+ " ; ++" +:+ repeater_name +:+ "){" +:+ LF);
           nested_repeats_counter := (nested_repeats_counter s + 1) mod 2 ^ 32;
           helpers := h |} in
      let s := functor_for_each Pred Expressions s in
      append_string ("}" +:+ LF) s
    else s
  | _ =>
    if Pred Tree then
      let '(code, h) := make_expression_code Tree "gid" (helpers s) in
      {| generated_code := generated_code s +:+ (code +:+ ";" +:+ LF);
         nested_repeats_counter := nested_repeats_counter s;
         helpers := h |}
    else s
  end
with functor_for_each (Pred : predicate) (TList : type) (s : updates_state)
  : updates_state :=
  match TList with
  | typelist Head Tail => functor_for_each Pred Tail (functor_execute Pred Head s)
  | _ => s
  end.

(** A string passed by reference, next to the state of the helpers. *)
Definition code_state : Type := string * hidden.

Definition add (e : emitter) (s : code_state) : code_state :=
  let '(text, h) := e (snd s) in (fst s +:+ text, h).

Definition add_string (text : string) (s : code_state) : code_state :=
  (fst s +:+ text, snd s).

(** [fill_expression_updates<TList, Pred>::execute], lines 167-171. *)
Definition fill_expression_updates (TList : type) (Pred : predicate)
    (s : code_state) : code_state :=
  let dummy := 0%N in
  let s' := functor_for_each Pred TList
              {| generated_code := fst s; nested_repeats_counter := dummy;
                 helpers := snd s |} in
  (generated_code s', helpers s').

Section Operations.
(** [ExpressionsList], the template argument of [body_code]. *)
Variable ExpressionsList : type.

Definition OperationsList : type := get_operations_from_expressions ExpressionsList.

(** [declarations<Pred>::execute], lines 174-191. *)
Definition declarations (Pred : predicate) (s : code_state) : code_state :=
  let PredValidTmp := extract_if OperationsList Pred in
  let PredValid := no_duplicates PredValidTmp in
  ForEach (fun T => add (declarations_of T)) PredValid s.

(** [assignements<Pred>::execute], lines 193-211. *)
Definition assignements (Pred : predicate) (s : code_state) : code_state :=
  ForEach (fun T => add (assignements_of T))
    (no_duplicates (extract_if (get_operations_lhs OperationsList) Pred)) s.

(** The token for the inner product found in a list, or [NullType]. *)
Definition inner_product_token (InProd : type) (NestedLevel : N) : type :=
  get_type_if NullType (InProdToken InProd NestedLevel) (is_null_type InProd).

(** [fill_vector_expression<RequireGidLoop>], lines 213-242; the first
    argument is the value of the [Int2Type]. *)
Definition fill_vector_expression (RequireGidLoop : type) (is_null : bool)
    (res : code_state) : code_state :=
  if is_null then res
  else
    let RequireGidOperations := get_operations_from_expressions RequireGidLoop in
    let SymVecs := extract_if RequireGidOperations is_symbolic_vector in
    let VecExpr := expression_type (Head SymVecs) in
    let '(bound, h) := internal_size_expression VecExpr (snd res) in
    let res := (fst res, h) in
    let res := add_string ("for(unsigned int gid=get_global_id(0) ; gid < " +:+ bound
                           +:+ " ; gid+=get_global_size(0))" +:+ LF) res in
    let res := add_string ("{" +:+ LF) res in
    let res := declarations (or_is is_symbolic_vector is_symbolic_matrix) res in
    let res := add_string LF res in
    let res := fill_expression_updates RequireGidLoop is_vector_assignment res in
    let InProd := extract_if_unique RequireGidLoop is_inner_product_impl in
    let res := add (make_code_sum (inner_product_token InProd 1)) res in
    let res := assignements is_symbolic_vector res in
    add_string ("}" +:+ LF) res.

(** [vector_code_impl], lines 244-257; the argument is the value of the
    [Int2Type].  The result is the returned string. *)
Definition vector_code_impl (matvec_prod : bool) (h : hidden) : code_state :=
  if matvec_prod then
    let Root := Head OperationsList in
    let token :=
      match Root with
      | compound_node LHS OP RHS => MatVecToken RHS OP LHS
      | _ => NullType   (* Root::RHS does not exist: no such instance compiles *)
      end in
    add (make_code_value token) (EmptyString, h)
  else
    let RequireGidLoopTmp := extract_if ExpressionsList requires_vector_access in
    let RequireGidLoop := no_duplicates RequireGidLoopTmp in
    fill_vector_expression RequireGidLoop (is_null_type RequireGidLoop) (EmptyString, h).

(** [body_code<ExpressionsList>::value()], lines 261-288. *)
Definition value (h : hidden) : code_state :=
  let res := (EmptyString, h) in
  let res := add_string ("{" +:+ LF) res in
  let res := declarations is_symbolic_gpu_scalar res in
  let res := declarations is_inner_product_impl res in
  let res := declarations is_inner_product_leaf res in
  let InProd0 := extract_if_unique OperationsList is_inner_product_leaf in
  let res := add (make_code_value (inner_product_token InProd0 0)) res in
  let res :=
    if (0 <? count_if OperationsList requires_vector_access)%N
    then add (vector_code_impl (0 <? count_if OperationsList is_product_leaf)%N) res
    else res in
  let InProd1 := extract_if_unique OperationsList is_inner_product_impl in
  let res := add (make_code_reduction (inner_product_token InProd1 1)) res in
  let res := fill_expression_updates ExpressionsList is_scalar_assignment res in
  let res := assignements is_symbolic_gpu_scalar res in
  add_string ("}" +:+ LF) res.

End Operations.

End BodyCode.

End Generator.

(** ** viennacl/linalg/detail/ilu/ilut.hpp *)
Module Ilut.

(** The arithmetic of a floating-point type, as far as the factorisation
    uses it.  Nothing is assumed of the operations: what is proved below
    holds for every choice, the IEEE formats included. *)
Class Numeric (T : Type) := {
  num_zero : T;
  num_add : T → T → T;
  num_sub : T → T → T;
  num_mul : T → T → T;
  num_div : T → T → T;
  num_sqrt : T → T;
  num_fabs : T → T;
  num_leb : T → T → bool;   (* x <= y *)
  num_ltb : T → T → bool    (* x < y *)
}.

(** The ways a call can end. *)
Inductive result (A : Type) :=
| ok (a : A)
| throw (what : string) (cerr : list string)   (* a C++ throw, and what was printed before it *)
| undefined.                                   (* an access past the end of a buffer *)
Arguments ok {A} a.
Arguments throw {A} what cerr.
Arguments undefined {A}.

#[global] Instance result_ret : MRet result := fun A a => ok a.
#[global] Instance result_bind : MBind result := fun A B f r =>
  match r with
  | ok a => f a
  | throw what cerr => throw what cerr
  | undefined => undefined
  end.

(** [v[i]] on a [std::vector] or through a raw pointer. *)
Definition subscript {A} (v : list A) (i : N) : result A :=
  match v !! N.to_nat i with
  | Some x => ok x
  | None => undefined
  end.

Section Factorisation.
Context {double NumericT : Type} `{Numeric double} `{Numeric NumericT}.
(** [static_cast<NumericT>] of a [double]. *)
Variable static_cast : double → NumericT.

(** *** [ilut_tag] *)
Record ilut_tag := {
  entries_per_row_ : N;
  drop_tolerance_ : double;
  use_level_scheduling_ : bool
}.

Definition set_drop_tolerance (tag : ilut_tag) (tol : double) : ilut_tag :=
  if num_ltb num_zero tol
  then {| entries_per_row_ := entries_per_row_ tag;
          drop_tolerance_ := tol;
          use_level_scheduling_ := use_level_scheduling_ tag |}
  else tag.

Definition get_drop_tolerance (tag : ilut_tag) : double := drop_tolerance_ tag.

Definition set_entries_per_row (tag : ilut_tag) (e : N) : ilut_tag :=
  if (0 <? e)%N
  then {| entries_per_row_ := e;
          drop_tolerance_ := drop_tolerance_ tag;
          use_level_scheduling_ := use_level_scheduling_ tag |}
  else tag.

Definition get_entries_per_row (tag : ilut_tag) : N := entries_per_row_ tag.

(** *** [std::map<SizeT, NumericT>] *)

(** The entries in ascending order of their keys. *)
Definition sparse_vector : Type := list (N * NumericT).

Fixpoint find (k : N) (m : sparse_vector) : option NumericT :=
  match m with
  | [] => None
  | (k', v) :: m' => if (k' =? k)%N then Some v else find k m'
  end.

(** [m[k] = v] *)
Fixpoint assign (k : N) (v : NumericT) (m : sparse_vector) : sparse_vector :=
  match m with
  | [] => [(k, v)]
  | (k', v') :: m' =>
    if (k <? k')%N then (k, v) :: m
    else if (k =? k')%N then (k, v) :: m'
    else (k', v') :: assign k v m'
  end.

(** Reading [m[k]]: a missing key is first inserted with value zero. *)
Definition index (m : sparse_vector) (k : N) : NumericT * sparse_vector :=
  match find k m with
  | Some v => (v, m)
  | None => (num_zero, assign k num_zero m)
  end.

(** [m.begin()], and [++it] for the iterator at key [k]: iterators are
    named by the key of their node, [None] being [m.end()]. *)
Definition begin (m : sparse_vector) : option N := fst <$> head m.

Definition next (k : N) (m : sparse_vector) : option N :=
  fst <$> List.find (fun e => (k <? fst e)%N) m.

(** *** [std::multimap<NumericT, std::pair<SizeT, NumericT>>] *)
Definition TemporarySortMap : Type := list (NumericT * (N * NumericT)).

(** [insert]: after the entries whose key is not greater.  This is where
    the library puts the entry when [<] is a strict weak ordering of the
    keys in the map, which [std::multimap] requires of its comparison;
    where the entries stand for other keys (a NaN among unequal numbers)
    the library does not say. *)
Fixpoint multimap_insert (x : NumericT) (v : N * NumericT) (m : TemporarySortMap)
  : TemporarySortMap :=
  match m with
  | [] => [(x, v)]
  | (y, u) :: m' =>
    if num_ltb x y then (x, v) :: m else (y, u) :: multimap_insert x v m'
  end.

(** *** [setup_w] *)

(** The two matrix types [precondition] is instantiated with. *)
Class SparseMatrixTypeT (M : Type) := {
  size1 : M → N;
  setup_w : M → N → sparse_vector → result (NumericT * sparse_vector)
}.

(** [row_norm += v * v] over the entries of a row. *)
Definition sum_squares (w : sparse_vector) : NumericT :=
  foldl (fun row_norm e => num_add row_norm (num_mul (snd e) (snd e))) num_zero w.

(** The overload for [std::vector<std::map<SizeT, NumericT>>], lines 113-124. *)
Definition setup_w_stl (A : list sparse_vector) (row : N) (w : sparse_vector)
  : result (NumericT * sparse_vector) :=
  w ← subscript A row;
  mret (num_sqrt (sum_squares w), w).

#[global] Instance stl_matrix : SparseMatrixTypeT (list sparse_vector) := {
  size1 A := N.of_nat (List.length A);
  setup_w := setup_w_stl
}.

(** A [compressed_matrix] in main memory: its three buffers. *)
Record compressed_matrix := {
  csr_size1 : N;
  csr_elements : list NumericT;
  csr_row_buffer : list N;
  csr_col_buffer : list N
}.

(** The loop of lines 103-108, with [n] iterations left. *)
Fixpoint setup_w_csr_loop (A : compressed_matrix) (n : nat) (buf_index_i : N)
    (row_norm : NumericT) (w : sparse_vector) : result (NumericT * sparse_vector) :=
  match n with
  | O => mret (row_norm, w)
  | S n' =>
    entry ← subscript (csr_elements A) buf_index_i;
    col ← subscript (csr_col_buffer A) buf_index_i;
    setup_w_csr_loop A n' (N.succ buf_index_i)
      (num_add row_norm (num_mul entry entry))
      (assign col entry (snd (index w col)))
  end.

(** The overload for [compressed_matrix], lines 87-110. *)
Definition setup_w_csr (A : compressed_matrix) (row : N) (w : sparse_vector)
  : result (NumericT * sparse_vector) :=
  row_i_begin ← subscript (csr_row_buffer A) row;
  row_i_end ← subscript (csr_row_buffer A) (row + 1);
  '(row_norm, w) ← setup_w_csr_loop A (N.to_nat (row_i_end - row_i_begin))
                     row_i_begin num_zero w;
  mret (num_sqrt row_norm, w).

#[global] Instance csr_matrix : SparseMatrixTypeT compressed_matrix := {
  size1 := csr_size1;
  setup_w := setup_w_csr
}.

(** *** [precondition] *)

Definition Output : Type := list sparse_vector.

(** [a_kk <= 0 && a_kk >= 0] *)
Definition is_zero (a_kk : NumericT) : bool :=
  num_leb a_kk num_zero && num_leb num_zero a_kk.

(** The line printed before the first throw, lines 170-171. *)
Definition zero_diagonal_message (k i : N) : string :=
  "ViennaCL: FATAL ERROR in ILUT(): Diagonal entry is zero in row " +:+ to_string k
  +:+ " while processing line " +:+ to_string i +:+ "!".

(** Line 7, lines 182-186: the row [output[k]] is subtracted from [w]. *)
Definition line7 (k : N) (w_k_entry : NumericT) (row_k w : sparse_vector)
  : sparse_vector :=
  foldl (fun w u_k =>
           if (k <? fst u_k)%N
           then let '(x, w) := index w (fst u_k) in
                assign (fst u_k) (num_sub x (num_mul w_k_entry (snd u_k))) w
           else w)
        w row_k.

(** The body of the loop of line 3 for the entry of [w] with key [k < i],
    lines 166-187. *)
Definition line3_body (i : N) (tau_i : NumericT) (k : N)
    (w : sparse_vector) (output : Output) : result (sparse_vector * Output) :=
  row_k ← subscript output k;
  let '(a_kk, row_k) := index row_k k in
  let output := <[N.to_nat k := row_k]> output in
  if is_zero a_kk
  then throw "ILUT zero diagonal!" [zero_diagonal_message k i]
  else
    match find k w with
    | None => undefined   (* the iterator always names an entry of w *)
    | Some w_k_second =>
      let w_k_entry := num_div w_k_second a_kk in
      let w := assign k w_k_entry w in
      if num_ltb tau_i (num_fabs w_k_entry)
      then mret (line7 k w_k_entry row_k w, output)
      else mret (w, output)
    end.

(** How far the iterator [w_k] is from leaving the loop of line 3. *)
Definition distance_to (i : N) (w_k : option N) : nat :=
  match w_k with
  | None => O
  | Some k => S (N.to_nat (i - k))
  end.

(** The loop of line 3, lines 160-191, entered with the iterator [w_k]. *)
Equations? line3 (i : N) (tau_i : NumericT) (w_k : option N)
    (w : sparse_vector) (output : Output)
  : result (sparse_vector * Output) by wf (distance_to i w_k) lt :=
line3 i tau_i None w output := ok (w, output);
line3 i tau_i (Some k) w output with decide (i ≤ k)%N := {
  | left _ => ok (w, output)   (* break *)
  | right _ =>
    match line3_body i tau_i k w output with
    | ok (w', output') => line3 i tau_i (next k w') w' output'
    | throw what cerr => throw what cerr
    | undefined => undefined
    end }.
Proof.
  destruct (next k w') as [k'|] eqn:E; simpl; [|lia].
  assert (k < k')%N; [|lia].
  revert E. unfold next. clear. induction w' as [|e m IH]; simpl; [discriminate|].
  destruct (k <? fst e)%N eqn:E; simpl; [|exact IH].
  intros [= <-]. now apply N.ltb_lt.
Qed.

(** Line 10, lines 195-210: the entries of [w] that are kept, sorted by
    magnitude. *)
Fixpoint line10 (i : N) (tau_i : NumericT) (w : sparse_vector)
    (temp_map : TemporarySortMap) : result TemporarySortMap :=
  match w with
  | [] => mret temp_map
  | (k, w_k_entry) :: w' =>
    let abs_w_k := num_fabs w_k_entry in
    if num_ltb tau_i abs_w_k || (k =? i)%N
    then
      if num_leb abs_w_k num_zero
      then throw "Triangular factor in ILUT singular!" []
      else line10 i tau_i w' (multimap_insert abs_w_k (k, w_k_entry) temp_map)
    else line10 i tau_i w' temp_map
  end.

(** The counters of lines 213-214. *)
Record written := {
  written_L : N;
  written_U : N
}.

(** Lines 10-12, lines 215-241, over the entries of [temp_map] from the
    largest key down. *)
Fixpoint write_row (i : N) (tag : ilut_tag) (iter : TemporarySortMap)
    (count : written) (output : Output) : result Output :=
  match iter with
  | [] => mret output
  | (_, (j, w_j_entry)) :: iter' =>
    row_i ← subscript output i;
    let store := <[N.to_nat i := assign j w_j_entry row_i]> output in
    if (j <? i)%N then
      if (written_L count <? get_entries_per_row tag)%N
      then write_row i tag iter'
             {| written_L := N.succ (written_L count); written_U := written_U count |}
             store
      else write_row i tag iter' count output
    else if (j =? i)%N then
      write_row i tag iter' count store
    else
      if (written_U count <? get_entries_per_row tag)%N
      then write_row i tag iter'
             {| written_L := written_L count; written_U := N.succ (written_U count) |}
             store
      else write_row i tag iter' count output
  end.

(** One iteration of the loop of line 1, lines 150-245. *)
Definition eliminate_row `{SparseMatrixTypeT M} (A : M) (tag : ilut_tag) (i : N)
    (w : sparse_vector) (output : Output) : result (sparse_vector * Output) :=
  '(row_norm, w) ← setup_w A i w;
  let tau_i := num_mul (static_cast (get_drop_tolerance tag)) row_norm in
  '(w, output) ← line3 i tau_i (begin w) w output;
  temp_map ← line10 i tau_i w [];
  output ← write_row i tag (rev temp_map)
             {| written_L := 0; written_U := 0 |} output;
  mret ([], output).

(** [n] iterations of the loop of line 1, from row [i]. *)
Fixpoint rows `{SparseMatrixTypeT M} (A : M) (tag : ilut_tag) (n : nat) (i : N)
    (w : sparse_vector) (output : Output) : result (sparse_vector * Output) :=
  match n with
  | O => mret (w, output)
  | S n' =>
    '(w, output) ← eliminate_row A tag i w output;
    rows A tag n' (N.succ i) w output
  end.

(** [precondition(A, output, tag)]; the result is [output] on return. *)
Definition precondition `{SparseMatrixTypeT M} (A : M) (output : Output)
    (tag : ilut_tag) : result Output :=
  '(_, output) ← rows A tag (N.to_nat (size1 A)) 0 [] output;
  mret output.

(** [LU_temp] as [ilut_precond::init] hands it to [precondition]:
    [size] empty rows. *)
Definition LU_temp (size : N) : Output := replicate (N.to_nat size) [].

(** [ilut_precond::init], lines 278-292 and 360-381, up to the copy of
    the result into [LU_]: the factorisation of the host copy of [mat] into
    a fresh [LU_temp]. *)
Definition init `{SparseMatrixTypeT M} (mat : M) (tag : ilut_tag) : result Output :=
  precondition mat (LU_temp (size1 mat)) tag.

End Factorisation.

End Ilut.

(** * Sample inputs

    Concrete devices, oracles and matrices on which the statements below
    are instantiated. *)
Module Sample.

(** A timing table of [n] entries: profile [k] took [k] seconds. *)
Definition table (n : nat) : list (Qc * N) :=
  map (fun k => (Q2Qc (inject_Z (Z.of_nat k)), N.of_nat k)) (seq 1 n).

(** A device on which every benchmark times a hundred profiles. *)
Definition benchmark (w : unit) (c : @Blas3.benchmark_call N)
    (timings : @Blas3.timings_t N) : @Blas3.timings_t N * unit :=
  (table 100, w).

(** The C library of glibc: [RAND_MAX] is 2^31 - 1. *)
Definition RAND_MAX : Z := 2147483647.

(** A linear congruential sequence below 2^31. *)
Definition srand_time (w : unit) (n : nat) : Z :=
  ((Z.of_nat n * 1103515245 + 12345) mod 2 ^ 31)%Z.


Definition gpu : Blas3.device_info :=
  {| Blas3.dev_name := "gpu"; Blas3.vendor_id := 4098 |}.

(** [main] on a machine with one platform holding one device. *)
Definition main (args : list string) : @Blas3.outcome N :=
  Blas3.main benchmark RAND_MAX srand_time (fun _ w => w) (fun _ w => w)
    args [[gpu]] tt.

(** Exact rational arithmetic, with the square root taken to thirty
    binary digits. *)
Definition Qc_sqrt (x : Qc) : Qc :=
  Q2Qc (Z.sqrt (Qnum (this x) * 2 ^ 60 / Zpos (Qden (this x))) # 2 ^ 30).

#[global] Instance Qc_numeric : Ilut.Numeric Qc := {
  Ilut.num_zero := 0%Qc;
  Ilut.num_add := Qcplus;
  Ilut.num_sub := Qcminus;
  Ilut.num_mul := Qcmult;
  Ilut.num_div := Qcdiv;
  Ilut.num_sqrt := Qc_sqrt;
  Ilut.num_fabs x := (if bool_decide (x < 0)%Qc then - x else x)%Qc;
  Ilut.num_leb x y := bool_decide (x ≤ y)%Qc;
  Ilut.num_ltb x y := bool_decide (x < y)%Qc
}.

Definition q (z : Z) : Qc := Q2Qc (inject_Z z).

(** [ilut_tag()] with its default arguments. *)
Definition tag : @Ilut.ilut_tag Qc :=
  {| Ilut.entries_per_row_ := 20;
     Ilut.drop_tolerance_ := Q2Qc (1 # 10000);
     Ilut.use_level_scheduling_ := false |}.

(** [precondition] on a [std::vector<std::map<unsigned int, double>>]. *)
Definition precondition (A : list (list (N * Qc))) : Ilut.result (list (list (N * Qc))) :=
  Ilut.precondition (fun x => x) A (Ilut.LU_temp (N.of_nat (List.length A))) tag.

(** The matrices [[2 1] [1 3]], [[0 1] [1 0]] and [[0 1] [0 1]]. *)
Definition regular : list (list (N * Qc)) :=
  [ [(0%N, q 2); (1%N, q 1)]; [(0%N, q 1); (1%N, q 3)] ].
Definition no_diagonal : list (list (N * Qc)) :=
  [ [(1%N, q 1)]; [(1%N, q 1)] ].

(** Helpers of the generator that count their calls but print the same
    text every time. *)
Definition text_of (T : @Generator.type string) : string :=
  match T with
  | Generator.symbolic s => s
  | Generator.compound_node (Generator.symbolic l) (Generator.symbolic o) (Generator.symbolic r) =>
    l +:+ o +:+ r
  | _ => EmptyString
  end.

Definition helper (prefix : string) (T : @Generator.type string) : @Generator.emitter nat :=
  fun calls => (prefix +:+ text_of T, S calls).

Definition is_symbol (s : string) : @Generator.predicate string := fun T =>
  match T with
  | Generator.symbolic s' => String.eqb s s'
  | _ => false
  end.

Definition is_compound : @Generator.predicate string := fun T =>
  match T with
  | Generator.compound_node _ _ _ => true
  | _ => false
  end.

Fixpoint length_of (T : @Generator.type string) : N :=
  match T with
  | Generator.typelist _ Tail => 1 + length_of Tail
  | _ => 0
  end.

(** [Repeat(n) { s = t; }] *)
Definition expressions : @Generator.type string :=
  Generator.typelist
    (Generator.repeater_impl (Generator.symbolic "n")
       (Generator.typelist
          (Generator.compound_node (Generator.symbolic "s") (Generator.symbolic "=")
             (Generator.symbolic "t"))
          Generator.NullType))
    Generator.NullType.

End Sample.
(** * Properties *)

(** ** The autotuner driver *)
Section FillMatrixFacts.
Import Blas3.
Variable RAND_MAX : Z.
Variable rand : nat → Z.

(** The loops of [fill_matrix] stay inside a matrix with at least [rows]
    rows and [cols] columns. *)
Definition fits (rows cols : N) (m : matrix) : Prop :=
  (rows ≤ size1 m)%N ∧ (cols ≤ size2 m)%N.

(** The [rand()] call that produced the element of [B] in row [i],
    column [j]; the element of [C] comes from the next one. *)
Definition draw (cols i j : N) : nat := N.to_nat (2 * (i * cols + j)).

(** What holds when the loops stand before row [i], column [j]. *)
Record filled_before (rows cols i j : N) (s : fill_state) : Prop := {
  fb_A : fits rows cols (cpu_A s);
  fb_B : fits rows cols (cpu_B s);
  fb_C : fits rows cols (cpu_C s);
  fb_calls : rand_calls s = draw cols i j;
  fb_elements : ∀ i' j', (j' < cols)%N → (i' < i ∨ i' = i ∧ j' < j)%N →
    elements (cpu_A s) i' j' = Some 0%Qc ∧
    elements (cpu_B s) i' j' = Some (rand_quotient RAND_MAX (rand (draw cols i' j'))) ∧
    elements (cpu_C s) i' j' = Some (rand_quotient RAND_MAX (rand (S (draw cols i' j'))))
}.

Lemma write_inr m i j v :
  (i < size1 m)%N → (j < size2 m)%N →
  ∃ m', write m i j v = inr m' ∧ size1 m' = size1 m ∧ size2 m' = size2 m ∧
        elements m' i j = Some v ∧
        ∀ i' j', (i' ≠ i ∨ j' ≠ j) → elements m' i' j' = elements m i' j'.
Proof.
  intros Hi Hj. unfold write.
  apply N.ltb_lt in Hi as ->. apply N.ltb_lt in Hj as ->. cbn [andb].
  eexists. split; [reflexivity|]. cbn [size1 size2 elements].
  rewrite !N.eqb_refl. repeat split.
  intros i' j' Hne.
  destruct (N.eqb_spec i' i), (N.eqb_spec j' j); cbn [andb]; try reflexivity.
  destruct Hne; congruence.
Qed.

Lemma fill_body_spec rows cols i j s :
  (i < rows)%N → (j < cols)%N → filled_before rows cols i j s →
  ∃ s', fill_body RAND_MAX rand i j s = inr s' ∧
        filled_before rows cols i (N.succ j) s'.
Proof.
  intros Hi Hj [[HA1 HA2] [HB1 HB2] [HC1 HC2] Hcalls Hel].
  unfold fill_body.
  destruct (write_inr (cpu_A s) i j 0%Qc) as (a & -> & Ha1 & Ha2 & Ha & Ha'); [lia..|].
  destruct (write_inr (cpu_B s) i j (rand_quotient RAND_MAX (rand (rand_calls s))))
    as (b & -> & Hb1 & Hb2 & Hb & Hb'); [lia..|].
  destruct (write_inr (cpu_C s) i j (rand_quotient RAND_MAX (rand (S (rand_calls s)))))
    as (c & -> & Hc1 & Hc2 & Hc & Hc'); [lia..|].
  eexists. split; [reflexivity|].
  split; cbn [cpu_A cpu_B cpu_C rand_calls]; unfold fits.
  - lia.
  - lia.
  - lia.
  - rewrite Hcalls. unfold draw. lia.
  - intros i' j' Hj' Hpos.
    destruct (decide (i' = i ∧ j' = j)) as [[-> ->]|Hne].
    + rewrite Ha, Hb, Hc, Hcalls. done.
    + rewrite Ha', Hb', Hc' by lia. apply Hel; lia.
Qed.

Lemma fill_columns_spec rows cols i n j s :
  (i < rows)%N → (j + N.of_nat n = cols)%N → filled_before rows cols i j s →
  ∃ s', fill_columns RAND_MAX rand n i j s = inr s' ∧
        filled_before rows cols i cols s'.
Proof.
  intros Hi. revert j s. induction n as [|n IH]; intros j s Hj Hinv.
  - assert (j = cols) as -> by lia. eexists; split; [reflexivity|done].
  - cbn [fill_columns].
    destruct (fill_body_spec rows cols i j s) as (s' & -> & Hinv'); [lia..|done|].
    apply IH; [lia|done].
Qed.

Lemma filled_before_next_row rows cols i s :
  filled_before rows cols i cols s → filled_before rows cols (N.succ i) 0 s.
Proof.
  intros [HA HB HC Hcalls Hel]. split; try done.
  - rewrite Hcalls. unfold draw. lia.
  - intros i' j' Hj' Hpos. apply Hel; lia.
Qed.

Lemma fill_rows_spec rows cols n i s :
  (i + N.of_nat n = rows)%N → filled_before rows cols i 0 s →
  ∃ s', fill_rows RAND_MAX rand n cols i s = inr s' ∧
        filled_before rows cols rows 0 s'.
Proof.
  revert i s. induction n as [|n IH]; intros i s Hi Hinv.
  - assert (i = rows) as -> by lia. eexists; split; [reflexivity|done].
  - cbn [fill_rows].
    destruct (fill_columns_spec rows cols i (N.to_nat cols) 0 s)
      as (s' & -> & Hinv'); [lia..|done|].
    apply IH; [lia|]. by apply filled_before_next_row.
Qed.

Lemma write_sizes m i j v m' :
  write m i j v = inr m' → size1 m' = size1 m ∧ size2 m' = size2 m.
Proof. unfold write. case_match; [|done]. by intros [= <-]. Qed.

(** The dimensions of the three host matrices are those they were
    created with. *)
Definition same_sizes (s s' : fill_state) : Prop :=
  (size1 (cpu_A s') = size1 (cpu_A s) ∧ size2 (cpu_A s') = size2 (cpu_A s)) ∧
  (size1 (cpu_B s') = size1 (cpu_B s) ∧ size2 (cpu_B s') = size2 (cpu_B s)) ∧
  (size1 (cpu_C s') = size1 (cpu_C s) ∧ size2 (cpu_C s') = size2 (cpu_C s)).

Lemma fill_body_sizes i j s s' :
  fill_body RAND_MAX rand i j s = inr s' → same_sizes s s'.
Proof.
  unfold fill_body, same_sizes.
  destruct (write (cpu_A s) i j _) as [|a] eqn:Ha; [done|].
  destruct (write (cpu_B s) i j _) as [|b] eqn:Hb; [done|].
  destruct (write (cpu_C s) i j _) as [|c] eqn:Hc; [done|].
  intros [= <-]. cbn [cpu_A cpu_B cpu_C].
  apply write_sizes in Ha, Hb, Hc. done.
Qed.

Lemma fill_columns_sizes n i j s s' :
  fill_columns RAND_MAX rand n i j s = inr s' → same_sizes s s'.
Proof.
  revert j s. induction n as [|n IH]; intros j s; cbn [fill_columns].
  - intros [= <-]. by unfold same_sizes.
  - destruct (fill_body RAND_MAX rand i j s) as [|s1] eqn:Hb; [done|].
    intros Hs'. apply fill_body_sizes in Hb. apply IH in Hs'.
    unfold same_sizes in *. intuition congruence.
Qed.

Lemma fill_rows_sizes n cols i s s' :
  fill_rows RAND_MAX rand n cols i s = inr s' → same_sizes s s'.
Proof.
  revert i s. induction n as [|n IH]; intros i s; cbn [fill_rows].
  - intros [= <-]. by unfold same_sizes.
  - destruct (fill_columns RAND_MAX rand (N.to_nat cols) i 0 s) as [|s1] eqn:Hc; [done|].
    intros Hs'. apply fill_columns_sizes in Hc. apply IH in Hs'.
    unfold same_sizes in *. intuition congruence.
Qed.

(** [fill_matrix] on three square matrices of one size, as [run_autotune]
    calls it: every write is in range, [A] is zero, and [B] and [C] hold
    the successive quotients. *)
Lemma fill_matrix_square size :
  ∃ s, fill_matrix RAND_MAX rand (size, size) (size, size) (size, size) = inr s ∧
       filled_before size size size 0 s ∧
       ∀ m, m ∈ [cpu_A s; cpu_B s; cpu_C s] → size1 m = size ∧ size2 m = size.
Proof.
  unfold fill_matrix. cbn [fst snd].
  destruct (fill_rows_spec size size (N.to_nat size) 0
              {| cpu_A := new_matrix size size; cpu_B := new_matrix size size;
                 cpu_C := new_matrix size size; rand_calls := 0 |})
    as (s & Hs & Hinv); [lia| |].
  { split; cbn [cpu_A cpu_B cpu_C rand_calls]; unfold fits, new_matrix, draw;
      cbn [size1 size2]; intros; lia. }
  exists s. split; [exact Hs|]. split; [exact Hinv|].
  apply fill_rows_sizes in Hs. unfold same_sizes in Hs. cbn in Hs.
  intros m Hm. repeat (apply elem_of_cons in Hm as [->|Hm]); [tauto..|].
  inversion Hm.
Qed.


End FillMatrixFacts.

Section AutotuneFacts.
Import Blas3.
Context {profile world : Type}.
Variable benchmark : world → @benchmark_call profile → @timings_t profile → @timings_t profile * world.
Variable RAND_MAX : Z.
Variable srand_time : world → nat → Z.

Local Abbreviation keep_loop := (@keep_loop profile world).
Local Abbreviation round := (round benchmark RAND_MAX srand_time).
Local Abbreviation rounds_loop := (rounds_loop benchmark RAND_MAX srand_time).
Local Abbreviation run_rounds := (run_rounds benchmark RAND_MAX srand_time).
Local Abbreviation run_autotune := (run_autotune benchmark RAND_MAX srand_time).

(** *** The loop that keeps the fastest profiles *)

Lemma keep_loop_unchanged n_keep position itt st :
  timings (keep_loop n_keep position itt st) = timings st ∧
  device (keep_loop n_keep position itt st) = device st.
Proof.
  revert position st. induction itt as [|[t p] itt IH]; intros position st; [done|].
  cbn [Blas3.keep_loop]. case_match; [done|].
  destruct (IH (N.succ position)
    {| timings := timings st; fastest_firsts := fastest_firsts st ++ [p];
       device := device st; trace := trace st ++ [fastest_firsts_push_back p] |})
    as [-> ->]. done.
Qed.

Lemma keep_loop_trace n_keep position itt st :
  ∃ kept, trace (keep_loop n_keep position itt st)
          = trace st ++ map fastest_firsts_push_back kept ∧
          fastest_firsts (keep_loop n_keep position itt st) = fastest_firsts st ++ kept.
Proof.
  revert position st. induction itt as [|[t p] itt IH]; intros position st.
  - exists []. cbn. by rewrite !app_nil_r.
  - cbn [Blas3.keep_loop]. case_match.
    + exists []. cbn. by rewrite !app_nil_r.
    + destruct (IH (N.succ position)
        {| timings := timings st; fastest_firsts := fastest_firsts st ++ [p];
           device := device st; trace := trace st ++ [fastest_firsts_push_back p] |})
        as (kept & -> & ->).
      exists (p :: kept). cbn. by rewrite <- !app_assoc.
Qed.

(** The loop stops at the first position above [n_keep]; positions
    [0 .. n_keep] have been pushed by then. *)
Lemma keep_loop_fastest_firsts n_keep position itt st :
  (n_keep + 1 < 2 ^ 32)%N → (position ≤ n_keep + 1)%N →
  fastest_firsts (keep_loop n_keep position itt st)
  = fastest_firsts st ++ (take (N.to_nat (n_keep + 1 - position)) itt).*2.
Proof.
  intros Hk. revert position st.
  induction itt as [|[t p] itt IH]; intros position st Hpos.
  - rewrite take_nil. cbn. by rewrite app_nil_r.
  - cbn [Blas3.keep_loop]. rewrite N.mod_small by lia.
    destruct (N.ltb_spec n_keep position).
    + replace (n_keep + 1 - position)%N with 0%N by lia. cbn. by rewrite app_nil_r.
    + rewrite IH by lia. cbn [fastest_firsts].
      replace (N.to_nat (n_keep + 1 - position))
        with (S (N.to_nat (n_keep + 1 - N.succ position))) by lia.
      cbn. by rewrite <- app_assoc.
Qed.

(** *** One round *)

Lemma benchmark_calls_app (t1 t2 : list (@event profile)) :
  benchmark_calls (t1 ++ t2) = benchmark_calls t1 ++ benchmark_calls t2.
Proof. unfold benchmark_calls. apply omap_app. Qed.

Lemma benchmark_calls_push_back (kept : list profile) :
  benchmark_calls (map fastest_firsts_push_back kept) = [].
Proof. induction kept; [done|]. cbn. exact IHkept. Qed.

(** The call a round makes, once the operands are filled. *)
Definition round_call (NumericT : scalar_t) (is_lhs_trans is_rhs_trans : bool)
    (position : N) (st : @tuner_state profile world) (filled : fill_state)
  : @benchmark_call profile :=
  {| operation := fst (statement is_lhs_trans is_rhs_trans);
     kind := (snd (statement is_lhs_trans is_rhs_trans), sizeof NumericT);
     source := if (position mod 2 ^ 32 =? 0)%N then from_config conf
               else from_profiles (fastest_firsts st);
     operands := filled |}.

(** What a round does before it selects the profiles to keep. *)
Definition round_events (size : N) (filled : fill_state) (c : @benchmark_call profile)
  : list (@event profile) :=
  [ timings_clear;
    matrix_alloc vcl_A size size;
    matrix_alloc vcl_B size size;
    matrix_alloc vcl_C size size;
    device_copy vcl_A (cpu_A filled);
    device_copy vcl_B (cpu_B filled);
    device_copy vcl_C (cpu_C filled);
    backend_finish;
    backend_finish;
    benchmark_run c;
    fastest_firsts_clear;
    backend_finish ].

(** A round always completes: the operands are filled in range, one
    benchmark is run, and the selection loop follows. *)
Lemma round_inr NumericT is_lhs_trans is_rhs_trans position size n_keep st :
  ∃ filled st',
    fill_matrix RAND_MAX (srand_time (device st))
      (size, size) (size, size) (size, size) = inr filled ∧
    filled_before RAND_MAX (srand_time (device st)) size size size 0 filled ∧
    round NumericT is_lhs_trans is_rhs_trans position (size, n_keep) st = inr st' ∧
    let c := round_call NumericT is_lhs_trans is_rhs_trans position st filled in
    let timed := fst (benchmark (device st) c []) in
    timings st' = timed ∧
    st' = keep_loop n_keep 0 timed
            {| timings := timed; fastest_firsts := [];
               device := snd (benchmark (device st) c []);
               trace := trace st ++ round_events size filled c |}.
Proof.
  destruct (fill_matrix_square RAND_MAX (srand_time (device st)) size)
    as (filled & Hfill & Hinv & _).
  exists filled.
  unfold Blas3.round. cbn [fst snd]. rewrite Hfill.
  fold (round_call NumericT is_lhs_trans is_rhs_trans position st filled).
  destruct (benchmark (device st)
              (round_call NumericT is_lhs_trans is_rhs_trans position st filled) [])
    as [timed w] eqn:Hb.
  eexists. split; [reflexivity|]. split; [exact Hinv|].
  split; [reflexivity|]. cbn [fst snd]. split; [|reflexivity].
  apply keep_loop_unchanged.
Qed.

Lemma round_calls NumericT is_lhs_trans is_rhs_trans position size n_keep st :
  ∃ filled st',
    round NumericT is_lhs_trans is_rhs_trans position (size, n_keep) st = inr st' ∧
    benchmark_calls (trace st')
    = benchmark_calls (trace st)
      ++ [round_call NumericT is_lhs_trans is_rhs_trans position st filled].
Proof.
  destruct (round_inr NumericT is_lhs_trans is_rhs_trans position size n_keep st)
    as (filled & st' & _ & _ & Hr & _ & Hst).
  exists filled, st'. split; [exact Hr|]. cbn zeta in Hst. rewrite Hst.
  match goal with |- context [keep_loop ?a ?b ?c ?d] =>
    destruct (keep_loop_trace a b c d) as (kept & -> & _) end.
  cbn [trace]. rewrite !benchmark_calls_app, benchmark_calls_push_back.
  cbn. by rewrite app_nil_r.
Qed.

(** *** The loop over the rounds *)

Lemma rounds_loop_app NumericT is_lhs_trans is_rhs_trans position rounds1 rounds2 st :
  rounds_loop NumericT is_lhs_trans is_rhs_trans position (rounds1 ++ rounds2) st
  = match rounds_loop NumericT is_lhs_trans is_rhs_trans position rounds1 st with
    | inl u => inl u
    | inr st' =>
      rounds_loop NumericT is_lhs_trans is_rhs_trans
        (position + N.of_nat (List.length rounds1)) rounds2 st'
    end.
Proof.
  revert position st. induction rounds1 as [|it rounds1 IH]; intros position st.
  - cbn. by rewrite N.add_0_r.
  - cbn [app Blas3.rounds_loop]. destruct (round _ _ _ _ _ _); [done|].
    rewrite IH. cbn [List.length].
    by replace (N.succ position + N.of_nat (List.length rounds1))%N
      with (position + N.of_nat (S (List.length rounds1)))%N by lia.
Qed.

(** The loop completes, and makes one benchmark call for each round. *)
Lemma rounds_loop_inr NumericT is_lhs_trans is_rhs_trans position rounds st :
  ∃ st' calls,
    rounds_loop NumericT is_lhs_trans is_rhs_trans position rounds st = inr st' ∧
    benchmark_calls (trace st') = benchmark_calls (trace st) ++ calls ∧
    List.length calls = List.length rounds ∧
    ∀ c, c ∈ calls →
      operation c = fst (statement is_lhs_trans is_rhs_trans) ∧
      kind c = (snd (statement is_lhs_trans is_rhs_trans), sizeof NumericT).
Proof.
  revert position st. induction rounds as [|[size n_keep] rounds IH]; intros position st.
  - exists st, []. cbn. rewrite app_nil_r. split; [done|]. split; [done|]. split; [done|].
    intros c Hc. inversion Hc.
  - cbn [Blas3.rounds_loop].
    destruct (round_calls NumericT is_lhs_trans is_rhs_trans position size n_keep st)
      as (filled & st1 & -> & Hcalls).
    destruct (IH (N.succ position) st1) as (st' & calls & -> & Hcalls' & Hlen & Hall).
    exists st', (round_call NumericT is_lhs_trans is_rhs_trans position st filled :: calls).
    split; [done|]. split; [|split].
    + rewrite Hcalls', Hcalls. by rewrite <- app_assoc.
    + cbn. by rewrite Hlen.
    + intros c [->|Hc]%elem_of_cons; [done|]. by apply Hall.
Qed.

Lemma run_autotune_inr NumericT is_lhs_trans is_rhs_trans w :
  ∃ st, run_autotune NumericT is_lhs_trans is_rhs_trans w = inr st ∧
        List.length (benchmark_calls (trace st)) = 2%nat ∧
        ∀ c, c ∈ benchmark_calls (trace st) →
          operation c = fst (statement is_lhs_trans is_rhs_trans) ∧
          kind c = (snd (statement is_lhs_trans is_rhs_trans), sizeof NumericT).
Proof.
  unfold Blas3.run_autotune, Blas3.run_rounds.
  destruct (rounds_loop_inr NumericT is_lhs_trans is_rhs_trans 0 rounds_config
              (initial_state w)) as (st & calls & Hr & Hcalls & Hlen & Hall).
  exists st. split; [exact Hr|]. rewrite Hcalls. cbn [initial_state trace benchmark_calls omap app]. auto.
Qed.

(** C1 (what the code does): at the end of a round the retained list is
    read off the timing table in its order, ascending by time, and holds
    the profiles of its first [n_keep + 1] entries (all of them when the
    table is shorter): one more than the number to keep. *)
Theorem round_end_retained NumericT is_lhs_trans is_rhs_trans position size n_keep st :
  (n_keep + 1 < 2 ^ 32)%N →
  ∃ st' c,
    round NumericT is_lhs_trans is_rhs_trans position (size, n_keep) st = inr st' ∧
    timings st' = fst (benchmark (device st) c []) ∧
    fastest_firsts st' = (take (S (N.to_nat n_keep)) (timings st')).*2.
Proof.
  intros Hk.
  destruct (round_inr NumericT is_lhs_trans is_rhs_trans position size n_keep st)
    as (filled & st' & _ & _ & Hr & Ht & Hst).
  exists st', (round_call NumericT is_lhs_trans is_rhs_trans position st filled).
  split; [exact Hr|]. split; [exact Ht|]. cbn zeta in Ht, Hst.
  rewrite Ht. rewrite Hst at 1. rewrite keep_loop_fastest_firsts by lia.
  cbn [fastest_firsts app]. f_equal. f_equal. lia.
Qed.

(** C2: on a schedule of rounds, the benchmark call of round 0 is given
    the whole parameter space [conf]; the call of every later round [k] is
    given exactly the list [fastest_firsts] as the rounds before [k] left
    it, and so never the parameter space. *)
Theorem later_rounds_use_retained NumericT is_lhs_trans is_rhs_trans rounds w :
  (N.of_nat (List.length rounds) ≤ 2 ^ 32)%N →
  ∃ st,
    run_rounds NumericT is_lhs_trans is_rhs_trans rounds w = inr st ∧
    List.length (benchmark_calls (trace st)) = List.length rounds ∧
    ∀ k c, benchmark_calls (trace st) !! k = Some c →
      match k with
      | O => source c = from_config conf
      | S _ =>
        ∃ st_prev,
          run_rounds NumericT is_lhs_trans is_rhs_trans (take k rounds) w = inr st_prev ∧
          source c = from_profiles (fastest_firsts st_prev)
      end.
Proof.
  intros Hlen. unfold Blas3.run_rounds.
  destruct (rounds_loop_inr NumericT is_lhs_trans is_rhs_trans 0 rounds (initial_state w))
    as (st & calls & Hrun & Hcalls & Hlen' & _).
  exists st. split; [exact Hrun|]. cbn in Hcalls. split; [by rewrite Hcalls|].
  intros k c Hk.
  assert (k < List.length rounds)%nat as Hlt.
  { apply lookup_lt_Some in Hk. by rewrite Hcalls, Hlen' in Hk. }
  destruct (lookup_lt_is_Some_2 rounds k Hlt) as [[size n_keep] Hit].
  rewrite <- (take_drop_middle rounds k (size, n_keep) Hit) in Hrun.
  rewrite rounds_loop_app in Hrun.
  destruct (rounds_loop_inr NumericT is_lhs_trans is_rhs_trans 0 (take k rounds)
              (initial_state w)) as (st_k & calls_k & Hrun_k & Hcalls_k & Hlen_k & _).
  rewrite Hrun_k in Hrun. cbn [Blas3.rounds_loop] in Hrun.
  rewrite length_take, Nat.min_l in Hrun, Hlen_k by lia.
  destruct (round_calls NumericT is_lhs_trans is_rhs_trans (0 + N.of_nat k) size n_keep st_k)
    as (filled & st_k1 & Hround & Hcalls_k1).
  rewrite Hround in Hrun.
  destruct (rounds_loop_inr NumericT is_lhs_trans is_rhs_trans (N.succ (0 + N.of_nat k))
              (drop (S k) rounds) st_k1) as (st' & calls' & Hrun' & Hcalls'' & _).
  rewrite Hrun' in Hrun. injection Hrun as <-.
  change (benchmark_calls (trace (initial_state w)))
    with (@nil (@benchmark_call profile)) in Hcalls_k.
  rewrite Hcalls'', Hcalls_k1, Hcalls_k in Hk. cbn [app] in Hk.
  rewrite <- app_assoc in Hk. rewrite lookup_app_r in Hk by lia.
  rewrite Hlen_k, Nat.sub_diag in Hk. cbn in Hk. injection Hk as <-.
  cbn [source round_call]. rewrite N.mod_small by lia.
  destruct k as [|k]; [done|].
  exists st_k. split; [exact Hrun_k|].
  destruct (N.eqb_spec (0 + N.of_nat (S k)) 0); [lia|done].
Qed.


(** *** The command line *)
Variable switch_context : nat → world → world.
Variable switch_device : device_info → world → world.

Local Abbreviation tune_device := (tune_device benchmark RAND_MAX srand_time switch_device).
Local Abbreviation devices_loop := (devices_loop benchmark RAND_MAX srand_time switch_device).
Local Abbreviation platforms_loop :=
  (platforms_loop benchmark RAND_MAX srand_time switch_context switch_device).
Local Abbreviation main := (main benchmark RAND_MAX srand_time switch_context switch_device).

Lemma to_unsigned_int_range z : (0 ≤ to_unsigned_int z < 2 ^ 32)%Z.
Proof. unfold to_unsigned_int. apply Z.mod_pos_bound. lia. Qed.

(** The loop over the devices of a platform stops at the device whose
    running number is the requested one. *)
Lemma devices_loop_spec requested_device layout scalartype dev current_device w :
  (0 ≤ current_device ≤ requested_device)%Z → (requested_device < 2 ^ 32)%Z →
  match dev !! Z.to_nat (requested_device - current_device) with
  | Some it =>
    devices_loop requested_device layout scalartype dev current_device w
    = inl (tune_device layout scalartype it w)
  | None =>
    devices_loop requested_device layout scalartype dev current_device w
    = inr (current_device + Z.of_nat (List.length dev))%Z
  end.
Proof.
  intros Hcur Hreq. revert current_device Hcur.
  induction dev as [|it dev IH]; intros current_device Hcur.
  - cbn. f_equal. lia.
  - cbn [Blas3.devices_loop]. destruct (Z.eqb_spec current_device requested_device) as [->|Hne].
    + by rewrite Z.sub_diag.
    + unfold to_unsigned_int. rewrite Z.mod_small by lia.
      replace (Z.to_nat (requested_device - current_device))
        with (S (Z.to_nat (requested_device - (current_device + 1)))) by lia.
      cbn [lookup list_lookup]. specialize (IH (current_device + 1)%Z ltac:(lia)).
      destruct (dev !! _); rewrite IH; [done|]. f_equal. cbn [List.length]. lia.
Qed.

(** The loops over platforms and devices reach the device with the
    requested running number, if there is one, and otherwise fall through
    to the end of [main]. *)
Lemma platforms_loop_spec requested_device layout scalartype platforms k current_device w :
  (0 ≤ current_device ≤ requested_device)%Z → (requested_device < 2 ^ 32)%Z →
  match List.concat platforms !! Z.to_nat (requested_device - current_device) with
  | Some it =>
    ∃ w', platforms_loop requested_device layout scalartype platforms k current_device w
          = tune_device layout scalartype it w'
  | None =>
    platforms_loop requested_device layout scalartype platforms k current_device w
    = {| cout := []; cerr := []; tuning := []; result := returned 0 |}
  end.
Proof.
  intros Hcur Hreq. revert k current_device w Hcur.
  induction platforms as [|dev platforms IH]; intros k current_device w Hcur; [done|].
  cbn [List.concat Blas3.platforms_loop].
  pose proof (devices_loop_spec requested_device layout scalartype dev current_device
                (switch_context k w) Hcur Hreq) as Hdev.
  destruct (dev !! Z.to_nat (requested_device - current_device)) as [it|] eqn:Hit.
  - rewrite (lookup_app_l_Some _ _ _ _ Hit), Hdev. by eexists.
  - rewrite Hdev. apply lookup_ge_None in Hit.
    rewrite lookup_app_r by lia.
    specialize (IH (S k) (current_device + Z.of_nat (List.length dev))%Z
                  (switch_context k w) ltac:(lia)).
    replace (Z.to_nat (requested_device - (current_device + Z.of_nat (List.length dev))))
      with (Z.to_nat (requested_device - current_device) - List.length dev)%nat in IH by lia.
    exact IH.
Qed.

(** With four arguments or more and numbers that fit [int], [main] goes
    into the loops. *)
Lemma main_enters_loops args platforms w a1 d a2 l scalartype :
  args !! 1%nat = Some a1 → atoi a1 = inr d →
  args !! 2%nat = Some a2 → atoi a2 = inr l →
  args !! 3%nat = Some scalartype →
  main args platforms w
  = platforms_loop (to_unsigned_int d) (to_unsigned_int l) scalartype platforms 0 0%Z w.
Proof.
  intros H1 Hd H2 Hl H3. unfold Blas3.main, subscript.
  apply lookup_lt_Some in H3 as Hlen.
  destruct (Nat.ltb_spec (List.length args) 3); [lia|].
  by rewrite H1, Hd, H2, Hl, H3.
Qed.

Lemma main_selects_device args platforms w a1 d a2 l scalartype it :
  args !! 1%nat = Some a1 → atoi a1 = inr d →
  args !! 2%nat = Some a2 → atoi a2 = inr l →
  args !! 3%nat = Some scalartype →
  List.concat platforms !! Z.to_nat (to_unsigned_int d) = Some it →
  ∃ w', main args platforms w = tune_device (to_unsigned_int l) scalartype it w'.
Proof.
  intros H1 Hd H2 Hl H3 Hit.
  rewrite (main_enters_loops _ _ _ _ _ _ _ _ H1 Hd H2 Hl H3).
  pose proof (to_unsigned_int_range d) as Hr.
  pose proof (platforms_loop_spec (to_unsigned_int d) (to_unsigned_int l) scalartype
                platforms 0 0%Z w ltac:(lia) ltac:(lia)) as Hloop.
  rewrite Z.sub_0_r, Hit in Hloop. exact Hloop.
Qed.

(** A layout and scalar type the [switch] has a case for. *)
Definition supported (layout : Z) (scalartype : string) : Prop :=
  (layout = 0 ∨ layout = 1 ∨ layout = 2 ∨ layout = 3)%Z ∧
  (scalartype = "float" ∨ scalartype = "double").




(** When [tune_device] calls [run_autotune], the run completes and the
    process exits with 0. *)
Lemma tune_device_supported layout scalartype it w NumericT is_lhs_trans is_rhs_trans :
  snd (switch_layout layout scalartype) = Some (NumericT, is_lhs_trans, is_rhs_trans) →
  let o := tune_device layout scalartype it w in
  ∃ st, run_autotune NumericT is_lhs_trans is_rhs_trans (switch_device it w) = inr st ∧
        tuning o = trace st ∧ cerr o = [] ∧ result o = exit 0.
Proof.
  intros Hsw. unfold Blas3.tune_device.
  destruct (switch_layout layout scalartype) as [step call].
  cbn [snd] in Hsw. subst call.
  destruct (run_autotune_inr NumericT is_lhs_trans is_rhs_trans (switch_device it w))
    as (st & Hrun & _).
  exists st. cbn zeta. rewrite Hrun. clear Hrun. repeat split.
Qed.

Lemma tune_device_exit layout scalartype it w :
  let o := tune_device layout scalartype it w in
  cerr o = [] ∧ result o = exit 0.
Proof.
  destruct (snd (switch_layout layout scalartype)) as [[[NumericT l] r]|] eqn:Hsw.
  - destruct (tune_device_supported _ _ it w _ _ _ Hsw) as (st & _ & _ & Hc & Hr).
    split; assumption.
  - unfold Blas3.tune_device. destruct (switch_layout layout scalartype) as [step call].
    cbn [snd] in Hsw. subst call. done.
Qed.

Lemma devices_loop_exit requested_device layout scalartype dev current_device w o :
  devices_loop requested_device layout scalartype dev current_device w = inl o →
  cerr o = [] ∧ result o = exit 0.
Proof.
  revert current_device. induction dev as [|it dev IH]; intros current_device; [done|].
  cbn [Blas3.devices_loop]. case_match; [|apply IH].
  intros [= <-]. apply tune_device_exit.
Qed.

(** Whatever the loops are given, they end in [exit(0)] or run off the
    end of [main]; nothing is written to the error stream. *)
Lemma platforms_loop_exit requested_device layout scalartype platforms k current_device w :
  let o := platforms_loop requested_device layout scalartype platforms k current_device w in
  cerr o = [] ∧
  (result o = exit 0 ∨ result o = returned 0 ∧ tuning o = []).
Proof.
  revert k current_device w.
  induction platforms as [|dev platforms IH]; intros k current_device w.
  - cbn. auto.
  - cbn [Blas3.platforms_loop].
    destruct (devices_loop requested_device layout scalartype dev current_device
                (switch_context k w)) as [o|current_device'] eqn:Hdev.
    + apply devices_loop_exit in Hdev as [? ?]. auto.
    + apply IH.
Qed.

(** C6: with fewer than three entries in the argument vector [main]
    prints the usage line on the error stream and exits with 1; when the
    requested device exists the process ends in [exit(0)], after the tuning
    run the layout selected; and no tuning run is ever followed by another
    exit status. *)
Theorem main_exit_codes args platforms w :
  ((List.length args < 3)%nat →
     main args platforms w
     = {| cout := []; cerr := ["USAGE : PROGRAM_NAME DEVICE LAYOUT SCALARTYPE"];
          tuning := []; result := exit 1 |}) ∧
  (∀ a1 d a2 l scalartype it,
     args !! 1%nat = Some a1 → atoi a1 = inr d →
     args !! 2%nat = Some a2 → atoi a2 = inr l →
     args !! 3%nat = Some scalartype →
     List.concat platforms !! Z.to_nat (to_unsigned_int d) = Some it →
     result (main args platforms w) = exit 0) ∧
  (tuning (main args platforms w) ≠ [] → result (main args platforms w) = exit 0).
Proof.
  split; [|split].
  - intros Hlen. unfold Blas3.main.
    by destruct (Nat.ltb_spec (List.length args) 3); [|lia].
  - intros a1 d a2 l scalartype it H1 Hd H2 Hl H3 Hit.
    destruct (main_selects_device args platforms w _ _ _ _ _ _ H1 Hd H2 Hl H3 Hit)
      as (w' & ->).
    apply tune_device_exit.
  - unfold Blas3.main. case_match; [done|].
    unfold stopped.
    repeat (case_match; [done|]).
    match goal with |- context [Blas3.platforms_loop ?b ?m ?s ?c ?d ?r ?l ?t ?p ?k ?cur ?w] =>
      destruct (platforms_loop_exit r l t p k cur w) as [_ [Hr|[_ Ht]]] end;
      [by intros _|by intros []].
Qed.

(** C9: with exactly three entries in the argument vector the usage guard
    does not fire: nothing is printed, and [main] runs into undefined
    behaviour, which is the read of [args[3]] in a vector of size 3
    whenever the two numbers before it fit [int]. *)
Theorem main_three_arguments args platforms w :
  List.length args = 3%nat →
  ∃ u, main args platforms w = stopped u ∧
       cerr (main args platforms w) = [] ∧
       result (main args platforms w) = undefined u ∧
       ∀ a1 d a2 l,
         args !! 1%nat = Some a1 → atoi a1 = inr d →
         args !! 2%nat = Some a2 → atoi a2 = inr l →
         u = vector_subscript 3 3.
Proof.
  intros Hlen.
  destruct args as [|a0 [|a1 [|a2 [|a3 args]]]]; try discriminate Hlen.
  unfold Blas3.main, subscript. cbn [List.length Nat.ltb Nat.leb lookup list_lookup].
  destruct (atoi a1) as [u1|d] eqn:Hd.
  { exists u1. repeat split. intros ? ? ? ? [= <-]. congruence. }
  destruct (atoi a2) as [u2|l] eqn:Hl.
  { exists u2. repeat split. intros ? ? ? ? _ _ [= <-]. congruence. }
  exists (vector_subscript 3 3). repeat split.
Qed.


(** The statement and kind each layout stands for. *)
Definition variant (layout : Z) : gemm_kind * symbolic :=
  let A := sym_matrix vcl_A in
  let B := sym_matrix vcl_B in
  let C := sym_matrix vcl_C in
  match layout with
  | 0%Z => (gemmAA, assign A (prod B C))
  | 1%Z => (gemmTA, assign A (prod (trans B) C))
  | 2%Z => (gemmAT, assign A (prod B (trans C)))
  | _ => (gemmTT, assign A (prod (trans B) (trans C)))
  end.

Lemma switch_layout_supported layout scalartype :
  supported layout scalartype →
  ∃ NumericT is_lhs_trans is_rhs_trans,
    snd (switch_layout layout scalartype) = Some (NumericT, is_lhs_trans, is_rhs_trans) ∧
    sizeof NumericT = (if String.eqb scalartype "float" then 4 else 8)%N ∧
    (snd (statement is_lhs_trans is_rhs_trans), fst (statement is_lhs_trans is_rhs_trans))
    = variant layout.
Proof.
  intros [Hl Hs].
  destruct Hs as [-> | ->]; destruct Hl as [-> | [-> | [-> | ->]]];
    cbn; eexists _, _, _; (split; [reflexivity|]); split; reflexivity.
Qed.

(** C4: for layout 0, 1, 2, 3 and scalar type "float" or "double", on the
    requested device, [main] runs the tuning whose every benchmark call is
    for AA (no operand transposed), TA (the left one), AT (the right one), TT
    (both) respectively, with the element size of the scalar type, and then
    exits with 0. *)
Theorem layout_selects_variant args platforms w a1 d a2 l scalartype it :
  args !! 1%nat = Some a1 → atoi a1 = inr d →
  args !! 2%nat = Some a2 → atoi a2 = inr l →
  args !! 3%nat = Some scalartype →
  List.concat platforms !! Z.to_nat (to_unsigned_int d) = Some it →
  supported (to_unsigned_int l) scalartype →
  let o := main args platforms w in
  result o = exit 0 ∧
  List.length (benchmark_calls (tuning o)) = 2%nat ∧
  ∀ c, c ∈ benchmark_calls (tuning o) →
    (fst (kind c), operation c) = variant (to_unsigned_int l) ∧
    snd (kind c) = (if String.eqb scalartype "float" then 4 else 8)%N.
Proof.
  intros H1 Hd H2 Hl H3 Hit Hs. cbn zeta.
  destruct (main_selects_device args platforms w _ _ _ _ _ _ H1 Hd H2 Hl H3 Hit)
    as (w' & ->).
  destruct (switch_layout_supported _ _ Hs) as (NumericT & lhs & rhs & Hsw & Hsize & Hv).
  destruct (tune_device_supported _ _ it w' _ _ _ Hsw) as (st & Hrun & -> & _ & ->).
  destruct (run_autotune_inr NumericT lhs rhs (switch_device it w'))
    as (st' & Hrun' & Hlen & Hall).
  rewrite Hrun in Hrun'. injection Hrun' as <-. clear Hrun.
  split; [reflexivity|]. split; [exact Hlen|].
  intros c Hc. destruct (Hall c Hc) as [Hop Hk]. rewrite Hk, Hop. cbn [fst snd].
  rewrite <- Hv, <- Hsize. split; reflexivity.
Qed.
End AutotuneFacts.

(** *** The statements at sample inputs *)
Section AutotuneSamples.
Import Blas3.


(** The first round of the schedule keeps 71 of a hundred timed profiles,
    with [n_keep] at 70. *)
Lemma round_end_retained_witness :
  (70 + 1 < 2 ^ 32)%N ∧
  ∃ st',
    round Sample.benchmark Sample.RAND_MAX Sample.srand_time float false false
      0 (512, 70)%N (initial_state tt) = inr st' ∧
    List.length (fastest_firsts st') = 71%nat.
Proof.
  split; [reflexivity|].
  destruct (round_end_retained Sample.benchmark Sample.RAND_MAX Sample.srand_time
              float false false 0 512 70 (initial_state tt))
    as (st' & c & Hr & Ht & Hf); [reflexivity|].
  exists st'. split; [exact Hr|].
  rewrite Hf, Ht. reflexivity.
Defined.

Lemma later_rounds_use_retained_witness :
  (N.of_nat (List.length rounds_config) ≤ 2 ^ 32)%N ∧
  ∃ st,
    run_rounds Sample.benchmark Sample.RAND_MAX Sample.srand_time float false false
      rounds_config tt = inr st ∧
    ∀ c, benchmark_calls (trace st) !! 1%nat = Some c →
      ∃ st_prev,
        run_rounds Sample.benchmark Sample.RAND_MAX Sample.srand_time float false false
          (take 1 rounds_config) tt = inr st_prev ∧
        source c = from_profiles (fastest_firsts st_prev).
Proof.
  assert (N.of_nat (List.length rounds_config) ≤ 2 ^ 32)%N as Hlen
    by (intros Hgt; discriminate Hgt).
  split; [exact Hlen|].
  destruct (later_rounds_use_retained Sample.benchmark Sample.RAND_MAX Sample.srand_time
              float false false rounds_config tt Hlen) as (st & Hr & _ & Hk).
  exists st. split; [exact Hr|]. intros c Hc. exact (Hk 1%nat c Hc).
Defined.



Lemma main_exit_codes_witness :
  Sample.main ["blas3"; "0"]
  = {| cout := []; cerr := ["USAGE : PROGRAM_NAME DEVICE LAYOUT SCALARTYPE"];
       tuning := []; result := exit 1 |} ∧
  result (Sample.main ["blas3"; "0"; "1"; "float"]) = exit 0.
Proof.
  split.
  - apply (proj1 (main_exit_codes Sample.benchmark Sample.RAND_MAX Sample.srand_time
                    (fun _ w => w) (fun _ w => w) ["blas3"; "0"] [[Sample.gpu]] tt)).
    cbn. lia.
  - eapply (proj1 (proj2 (main_exit_codes Sample.benchmark Sample.RAND_MAX
                            Sample.srand_time (fun _ w => w) (fun _ w => w)
                            ["blas3"; "0"; "1"; "float"] [[Sample.gpu]] tt))
              "0" 0%Z "1" 1%Z "float" Sample.gpu); reflexivity.
Defined.

Lemma main_three_arguments_witness :
  List.length ["blas3"; "0"; "1"] = 3%nat ∧
  cerr (Sample.main ["blas3"; "0"; "1"]) = [] ∧
  result (Sample.main ["blas3"; "0"; "1"]) = undefined (vector_subscript 3 3).
Proof.
  split; [reflexivity|].
  destruct (main_three_arguments Sample.benchmark Sample.RAND_MAX Sample.srand_time
              (fun _ w => w) (fun _ w => w) ["blas3"; "0"; "1"] [[Sample.gpu]] tt eq_refl)
    as (u & _ & Hc & Hr & Hu).
  split; [exact Hc|]. unfold Sample.main. rewrite Hr. f_equal.
  exact (Hu "0" 0%Z "1" 1%Z eq_refl eq_refl eq_refl eq_refl).
Defined.



Lemma layout_selects_variant_witness :
  let o := Sample.main ["blas3"; "0"; "1"; "double"] in
  supported (to_unsigned_int 1) "double" ∧
  result o = exit 0 ∧
  ∀ c, c ∈ benchmark_calls (tuning o) →
    kind c = (gemmTA, 8%N) ∧
    operation c
    = assign (sym_matrix vcl_A) (prod (trans (sym_matrix vcl_B)) (sym_matrix vcl_C)).
Proof.
  cbn zeta.
  assert (supported (to_unsigned_int 1) "double") as Hs.
  { split; [right; left; reflexivity|right; reflexivity]. }
  split; [exact Hs|].
  destruct (layout_selects_variant Sample.benchmark Sample.RAND_MAX
              Sample.srand_time (fun _ w => w) (fun _ w => w)
              ["blas3"; "0"; "1"; "double"] [[Sample.gpu]] tt "0" 0%Z "1" 1%Z "double"
              Sample.gpu eq_refl eq_refl eq_refl eq_refl eq_refl eq_refl Hs)
    as (Hr & _ & Hall).
  split; [exact Hr|]. unfold Sample.main. intros c Hc.
  destruct (Hall c Hc) as [Hv Hsize]. clear Hall Hc Hr.
  destruct (kind c) as [k sz]. cbn [fst snd] in *.
  injection Hv as -> ->. rewrite Hsize. split; reflexivity.
Defined.
End AutotuneSamples.

(** ** The ILUT factorisation *)
Section IlutFacts.
Import Ilut.
Context {double NumericT : Type} {double_ops : Numeric double}
  {numeric_ops : Numeric NumericT}.
Variable static_cast : double → NumericT.

Local Abbreviation sparse_vector := (list (N * NumericT)).
Local Abbreviation Output := (list (list (N * NumericT))).

(** *** The loop of line 3, unfolded *)

Lemma line3_end i tau_i (w : sparse_vector) (output : Output) :
  line3 i tau_i None w output = ok (w, output).
Proof. by simp line3. Qed.

Lemma line3_break i tau_i k (w : sparse_vector) (output : Output) :
  (i ≤ k)%N → line3 i tau_i (Some k) w output = ok (w, output).
Proof. intros Hk. simp line3. by destruct (decide (i ≤ k)%N). Qed.

Lemma line3_step i tau_i k (w : sparse_vector) (output : Output) :
  (k < i)%N →
  line3 i tau_i (Some k) w output
  = match line3_body i tau_i k w output with
    | ok (w', output') => line3 i tau_i (next k w') w' output'
    | throw what cerr => throw what cerr
    | undefined => undefined
    end.
Proof.
  intros Hk. simp line3. destruct (decide (i ≤ k)%N); [lia|]. cbn.
  destruct (line3_body i tau_i k w output) as [[w' output']| |]; reflexivity.
Qed.

Lemma next_after k (m : sparse_vector) k' : next k m = Some k' → (k < k')%N.
Proof.
  unfold next. induction m as [|e m IH]; cbn; [discriminate|].
  destruct (k <? fst e)%N eqn:E; cbn; [|exact IH].
  intros [= <-]. by apply N.ltb_lt.
Qed.

(** A property the body of the loop keeps is kept by the loop. *)
Lemma line3_invariant (I : sparse_vector → Output → Prop) i tau_i :
  (∀ k w output w' output',
     (k < i)%N → I w output → line3_body i tau_i k w output = ok (w', output') →
     I w' output') →
  ∀ w_k w output w' output',
    I w output → line3 i tau_i w_k w output = ok (w', output') → I w' output'.
Proof.
  intros Hbody w_k. remember (distance_to i w_k) as d eqn:Hd. revert w_k Hd.
  induction (lt_wf d) as [d _ IH]. intros [k|] -> w output w' output' HI Hrun.
  - destruct (decide (i ≤ k)%N) as [Hge|Hlt].
    + rewrite line3_break in Hrun by done. by injection Hrun as <- <-.
    + rewrite line3_step in Hrun by lia.
      destruct (line3_body i tau_i k w output) as [[w1 output1]| |] eqn:Hb; try done.
      eapply (IH (distance_to i (next k w1))); [|reflexivity| |exact Hrun].
      * destruct (next k w1) as [k'|] eqn:Hn; cbn; [|lia].
        apply next_after in Hn. lia.
      * eapply Hbody; [|exact HI|exact Hb]. lia.
  - rewrite line3_end in Hrun. by injection Hrun as <- <-.
Qed.

(** *** Keys of a [std::map] *)

Definition has_key (k : N) (m : sparse_vector) : Prop := is_Some (find k m).

Lemma find_assign k v j (m : sparse_vector) :
  find j (assign k v m) = if (j =? k)%N then Some v else find j m.
Proof.
  induction m as [|[k' v'] m IH]; cbn.
  - by rewrite (N.eqb_sym k j).
  - destruct (N.ltb_spec k k'); cbn.
    + by rewrite (N.eqb_sym k j).
    + destruct (N.eqb_spec k k') as [<-|Hne]; cbn.
      * rewrite (N.eqb_sym k j). by destruct (N.eqb_spec j k).
      * rewrite IH. destruct (N.eqb_spec k' j) as [<-|]; [|done].
        by destruct (N.eqb_spec k' k); [congruence|].
Qed.

Lemma has_key_assign k v j (m : sparse_vector) :
  has_key j m → has_key j (assign k v m).
Proof. unfold has_key. rewrite find_assign. by destruct (j =? k)%N. Qed.

Lemma has_key_assign_eq k v (m : sparse_vector) : has_key k (assign k v m).
Proof. unfold has_key. by rewrite find_assign, N.eqb_refl. Qed.

Lemma has_key_index k j (m : sparse_vector) :
  has_key j m → has_key j (snd (index m k)).
Proof.
  unfold index. destruct (find k m); [done|]. cbn. apply has_key_assign.
Qed.

Lemma has_key_In j (m : sparse_vector) : has_key j m → ∃ v, In (j, v) m.
Proof.
  unfold has_key. induction m as [|[k v] m IH]; cbn; [by intros []|].
  destruct (N.eqb_spec k j) as [->|]; [by eexists; left|].
  intros [v' Hv]%IH. eauto.
Qed.

Lemma has_key_line7 k w_k_entry (row_k w : sparse_vector) j :
  has_key j w → has_key j (line7 k w_k_entry row_k w).
Proof.
  unfold line7. revert w. induction row_k as [|u row_k IH]; intros w Hj; [done|].
  cbn [foldl]. apply IH. case_match; [|done].
  destruct (index w (fst u)) as [x w1] eqn:Hi.
  apply has_key_assign. change w1 with (snd (x, w1)). rewrite <- Hi.
  by apply has_key_index.
Qed.

(** The number of entries whose key satisfies [P]. *)
Definition count (P : N → bool) (m : sparse_vector) : nat :=
  List.length (List.filter (fun e => P (fst e)) m).

Lemma count_assign P k v (m : sparse_vector) :
  (count P (assign k v m) ≤ count P m + (if P k then 1 else 0))%nat.
Proof.
  unfold count. induction m as [|[k' v'] m IH]; cbn.
  - destruct (P k); cbn; lia.
  - destruct (N.ltb_spec k k'); cbn.
    + destruct (P k), (P k'); cbn; lia.
    + destruct (N.eqb_spec k k') as [<-|Hne]; cbn.
      * destruct (P k); cbn; lia.
      * destruct (P k'); cbn; lia.
Qed.

Lemma count_index P k (m : sparse_vector) :
  P k = false → (count P (snd (index m k)) ≤ count P m)%nat.
Proof.
  intros HP. unfold index. destruct (find k m); [done|]. cbn [snd].
  pose proof (count_assign P k num_zero m) as Hc. rewrite HP in Hc. lia.
Qed.

(** *** The sorted temporary *)

Lemma In_multimap_insert x v e (m : @TemporarySortMap NumericT) :
  In e (multimap_insert x v m) ↔ e = (x, v) ∨ In e m.
Proof.
  induction m as [|[y u] m IH]; cbn; [intuition congruence|].
  case_match; cbn; [intuition congruence|]. rewrite IH. intuition congruence.
Qed.

Lemma line10_keeps i tau_i (w : sparse_vector) temp_map temp_map' :
  line10 i tau_i w temp_map = ok temp_map' →
  (∀ e, In e temp_map → In e temp_map') ∧
  (∀ v, In (i, v) w → ∃ a, In (a, (i, v)) temp_map').
Proof.
  revert temp_map. induction w as [|[k v] w IH]; intros temp_map; cbn [line10].
  - intros [= <-]. split; [done|]. by intros v [].
  - destruct (num_ltb tau_i (num_fabs v) || (k =? i)%N) eqn:Hkeep.
    + case_match; [done|]. intros [Hold Hnew]%IH. split.
      * intros e He. apply Hold, In_multimap_insert. by right.
      * intros v' [[= -> ->]|Hin]; [|by apply Hnew].
        eexists. apply Hold, In_multimap_insert. by left.
    + intros [Hold Hnew]%IH. split; [done|].
      intros v' [[= -> ->]|Hin]; [|by apply Hnew].
      rewrite N.eqb_refl, orb_true_r in Hkeep. done.
Qed.

(** *** What a finished row looks like *)

(** Row [i] holds its diagonal entry if [diagonal] asks for it, and at
    most [p] entries on either side of the diagonal. *)
Definition row_bounded (diagonal : N → Prop) (p : N) (i : N) (row : sparse_vector) : Prop :=
  (diagonal i → has_key i row) ∧
  (N.of_nat (count (fun j => j <? i)%N row) ≤ p)%N ∧
  (N.of_nat (count (fun j => i <? j)%N row) ≤ p)%N.

(** Rows before [i] are finished, rows from [i] on are still empty. *)
Definition factored_before (diagonal : N → Prop) (p : N) (i : N) (output : Output) : Prop :=
  ∀ r row, output !! r = Some row →
    ((N.of_nat r < i)%N → row_bounded diagonal p (N.of_nat r) row) ∧
    ((i ≤ N.of_nat r)%N → row = []).

Lemma row_bounded_index diagonal p i row :
  row_bounded diagonal p i row → row_bounded diagonal p i (snd (index row i)).
Proof.
  intros (Hd & Hl & Hu). split; [|split].
  - intros Hi. by apply has_key_index, Hd.
  - pose proof (count_index (fun j => j <? i)%N i row (N.ltb_irrefl i)). lia.
  - pose proof (count_index (fun j => i <? j)%N i row (N.ltb_irrefl i)). lia.
Qed.

Lemma subscript_ok {A} (v : list A) i x : subscript v i = ok x → v !! N.to_nat i = Some x.
Proof. unfold subscript. destruct (v !! N.to_nat i); [|done]. by intros [= ->]. Qed.

(** The body of the loop of line 3 drops no key of [w] and touches only
    the diagonal of the finished row [k]. *)
Lemma line3_body_keeps diagonal p i tau_i k (w : sparse_vector) (output : Output) w' output' :
  (k < i)%N → line3_body i tau_i k w output = ok (w', output') →
  (∀ j, has_key j w → has_key j w') ∧
  (factored_before diagonal p i output → factored_before diagonal p i output').
Proof.
  intros Hk. unfold line3_body, Ilut.Output in *.
  destruct (subscript _ _) as [row_k| |] eqn:Hrow; cbn; try done.
  apply subscript_ok in Hrow.
  destruct (index _ _) as [a_kk row_k'] eqn:Hindex.
  destruct (is_zero a_kk); [done|].
  destruct (find _ _) as [w_k_second|]; [|done].
  assert (factored_before diagonal p i output →
          factored_before diagonal p i (<[N.to_nat k := row_k']> output)) as Hout.
  { intros Hinv r row Hr.
    destruct (decide (r = N.to_nat k)) as [->|Hne].
    - rewrite list_lookup_insert_eq in Hr by (by eapply lookup_lt_Some).
      injection Hr as <-. split; [|lia]. intros _.
      destruct (Hinv _ _ Hrow) as [Hb _]. rewrite N2Nat.id in *.
      change row_k' with (snd (a_kk, row_k')). rewrite <- Hindex.
      apply row_bounded_index, Hb. lia.
    - rewrite list_lookup_insert_ne in Hr by done. by apply Hinv. }
  case_match; intros [= <- <-]; (split; [|exact Hout]); intros j Hj.
  - by apply has_key_line7, has_key_assign.
  - by apply has_key_assign.
Qed.

Lemma line3_keeps diagonal p i tau_i w_k (w : sparse_vector) (output : Output) w' output' :
  line3 i tau_i w_k w output = ok (w', output') →
  factored_before diagonal p i output →
  (∀ j, has_key j w → has_key j w') ∧ factored_before diagonal p i output'.
Proof.
  intros Hrun Hinv.
  apply (line3_invariant
           (fun w1 output1 => (∀ j, has_key j w → has_key j w1) ∧
                              factored_before diagonal p i output1)
           i tau_i) with (w_k := w_k) (w := w) (output := output); [|done|done].
  intros k w1 output1 w2 output2 Hk [Hkeys Hout] Hbody.
  destruct (line3_body_keeps diagonal p i tau_i k w1 output1 w2 output2 Hk Hbody)
    as [Hkeys' Hout'].
  split; [|by apply Hout']. intros j Hj. by apply Hkeys', Hkeys.
Qed.

Local Ltac side :=
  let Hcmp := fresh in
  intros Hcmp; try rewrite N.ltb_irrefl in Hcmp; try discriminate Hcmp;
  try apply N.ltb_lt in Hcmp; try apply N.ltb_ge in Hcmp; cbn;
  first [lia | split; [reflexivity|lia] | reflexivity].

(** The loop of lines 10-12 writes row [i] only, drops none of its keys,
    writes the diagonal entry if [iter] has one, and lets [written_L] and
    [written_U] bound what it adds on either side. *)
Definition row_written (i : N) (tag : @ilut_tag double)
    (iter : list (NumericT * (N * NumericT))) (counters : written)
    (output output' : Output) : Prop :=
  List.length output' = List.length output ∧
  (∀ r, r ≠ N.to_nat i → output' !! r = output !! r) ∧
  ∀ row, output !! N.to_nat i = Some row →
    ∃ row', output' !! N.to_nat i = Some row' ∧
      (∀ j, has_key j row → has_key j row') ∧
      ((∃ a v, In (a, (i, v)) iter) → has_key i row') ∧
      ((N.of_nat (count (fun j => j <? i)%N row) ≤ written_L counters
        ≤ get_entries_per_row tag)%N →
       (N.of_nat (count (fun j => j <? i)%N row') ≤ get_entries_per_row tag)%N) ∧
      ((N.of_nat (count (fun j => i <? j)%N row) ≤ written_U counters
        ≤ get_entries_per_row tag)%N →
       (N.of_nat (count (fun j => i <? j)%N row') ≤ get_entries_per_row tag)%N).

Lemma write_row_spec i tag iter counters (output output' : Output) :
  write_row i tag iter counters output = ok output' →
  row_written i tag iter counters output output'.
Proof.
  unfold Ilut.Output in *. revert counters output.
  induction iter as [|[a [j v]] iter IH]; intros counters output; cbn [write_row].
  - intros [= <-]. split; [done|]. split; [done|]. intros row Hrow. exists row.
    split; [done|]. split; [done|]. split; [by intros (? & ? & [])|]. split; lia.
  - destruct (subscript _ _) as [row_i| |] eqn:Hsub; cbn; try done.
    apply subscript_ok in Hsub.
    set (store := <[N.to_nat i := assign j v row_i]> output).
    assert (store !! N.to_nat i = Some (assign j v row_i)) as Hstore.
    { apply list_lookup_insert_eq. by eapply lookup_lt_Some. }
    assert (∀ r, r ≠ N.to_nat i → store !! r = output !! r) as Hother.
    { intros r Hr. by apply list_lookup_insert_ne. }
    pose proof (count_assign (fun j => j <? i)%N j v row_i) as HcL.
    pose proof (count_assign (fun j => i <? j)%N j v row_i) as HcU.
    cbn beta in HcL, HcU.
    (* the entry is written *)
    assert (∀ counters',
      write_row i tag iter counters' store = ok output' →
      ((j <? i)%N = true → written_L counters' = N.succ (written_L counters) ∧
                            (written_L counters < get_entries_per_row tag)%N) →
      ((j <? i)%N = false → written_L counters' = written_L counters) →
      ((i <? j)%N = true → written_U counters' = N.succ (written_U counters) ∧
                            (written_U counters < get_entries_per_row tag)%N) →
      ((i <? j)%N = false → written_U counters' = written_U counters) →
      row_written i tag ((a, (j, v)) :: iter) counters output output') as Hwritten.
    { intros counters' Hrun HL HL' HU HU'.
      destruct (IH _ _ Hrun) as (Hlen & Hrows & Hrow).
      split; [by rewrite Hlen; apply length_insert|]. split.
      { intros r Hr. rewrite Hrows by done. by apply Hother. }
      intros row Hrow'. pose proof (eq_trans (eq_sym Hrow') Hsub) as [= ->].
      destruct (Hrow _ Hstore) as (row' & Hrow'' & Hkeys & Hdiag & HbL & HbU).
      exists row'. split; [done|]. split; [|split; [|split]].
      - intros j' Hj'. by apply Hkeys, has_key_assign.
      - intros (a0 & v0 & [[= -> -> ->]|Hin]).
        + apply Hkeys, has_key_assign_eq.
        + apply Hdiag. eauto.
      - intros Hb. apply HbL. destruct (j <? i)%N.
        + destruct HL as [-> ?]; [done|]. lia.
        + rewrite HL' by done. lia.
      - intros Hb. apply HbU. destruct (i <? j)%N.
        + destruct HU as [-> ?]; [done|]. lia.
        + rewrite HU' by done. lia. }
    (* the entry is skipped *)
    assert ((j =? i)%N = false →
      write_row i tag iter counters output = ok output' →
      row_written i tag ((a, (j, v)) :: iter) counters output output') as Hskipped.
    { intros Hji Hrun. destruct (IH _ _ Hrun) as (Hlen & Hrows & Hrow).
      split; [done|]. split; [done|].
      intros row Hrow'. destruct (Hrow _ Hrow') as (row' & ? & ? & Hdiag & ? & ?).
      exists row'. split; [done|]. split; [done|]. split; [|done].
      intros (a0 & v0 & [[= -> -> ->]|Hin]); [by rewrite N.eqb_refl in Hji|].
      apply Hdiag. eauto. }
    destruct (N.ltb_spec j i) as [Hlt|Hge].
    + destruct (N.ltb_spec (written_L counters) (get_entries_per_row tag)).
      * intros Hrun. apply (Hwritten _ Hrun); side.
      * apply Hskipped. apply N.eqb_neq. lia.
    + destruct (N.eqb_spec j i) as [->|Hne].
      * intros Hrun. apply (Hwritten _ Hrun); side.
      * destruct (N.ltb_spec (written_U counters) (get_entries_per_row tag)).
        -- intros Hrun. apply (Hwritten _ Hrun); side.
        -- by apply Hskipped.
Qed.

(** *** The zero on the diagonal *)




(** *** The loop over the rows *)
Section Matrix.
Context {M : Type} {matrix_ops : @SparseMatrixTypeT NumericT M}.
Variable A : M.
Variable tag : @ilut_tag double.

Local Abbreviation eliminate_row := (eliminate_row static_cast A tag).
Local Abbreviation rows := (rows static_cast A tag).
Local Abbreviation precondition := (precondition static_cast A).

(** Row [i] of the input has a stored entry on the diagonal. *)
Definition stored_diagonal (i : N) : Prop :=
  ∃ row_norm w, setup_w A i [] = ok (row_norm, w) ∧ has_key i w.

Local Abbreviation factored := (factored_before stored_diagonal (get_entries_per_row tag)).

Lemma eliminate_row_spec i (output : Output) w' output' :
  eliminate_row i [] output = ok (w', output') →
  factored i output → w' = [] ∧ factored (N.succ i) output'.
Proof.
  unfold Ilut.eliminate_row.
  destruct (setup_w A i []) as [[row_norm w1]| |] eqn:Hsetup; cbn; try done.
  destruct (line3 _ _ _ _ _) as [[w2 output2]| |] eqn:Hline3; cbn; try done.
  destruct (line10 _ _ _ _) as [temp_map| |] eqn:Hline10; cbn; try done.
  destruct (write_row _ _ _ _ _) as [output3| |] eqn:Hwrite; cbn; try done.
  intros [= <- <-] Hinv. split; [done|].
  destruct (line3_keeps stored_diagonal (get_entries_per_row tag) _ _ _ _ _ _ _ Hline3 Hinv)
    as [Hkeys Hinv2].
  apply line10_keeps in Hline10 as [_ Hdiag].
  apply write_row_spec in Hwrite as (Hlen & Hrows & Hrow).
  intros r row Hr. destruct (decide (r = N.to_nat i)) as [->|Hne].
  - split; [|lia]. intros _. rewrite N2Nat.id.
    destruct (lookup_lt_is_Some_2 output2 (N.to_nat i)) as [row_i Hrow_i].
    { apply lookup_lt_Some in Hr. unfold Ilut.Output, Ilut.sparse_vector in *. lia. }
    destruct (Hrow _ Hrow_i) as (row' & Hrow' & _ & Hd & HL & HU).
    pose proof (eq_trans (eq_sym Hr) Hrow') as [= ->].
    destruct (Hinv2 _ _ Hrow_i) as [_ Hempty]. rewrite Hempty in HL, HU by lia.
    split; [|split].
    + intros (row_norm' & w & Hsetup' & Hkey). apply Hd.
      pose proof (eq_trans (eq_sym Hsetup) Hsetup') as [= -> ->].
      destruct (has_key_In i w2 (Hkeys _ Hkey)) as [v Hv].
      destruct (Hdiag _ Hv) as [a Ha]. exists a, v. by apply in_rev in Ha.
    + apply HL. cbn. lia.
    + apply HU. cbn. lia.
  - rewrite Hrows in Hr by done. destruct (Hinv2 _ _ Hr) as [Hb He]. split.
    + intros Hlt. apply Hb. lia.
    + intros Hge. apply He. lia.
Qed.

Lemma rows_spec n i (output : Output) w' output' :
  rows n i [] output = ok (w', output') →
  factored i output → w' = [] ∧ factored (i + N.of_nat n) output'.
Proof.
  revert i output. induction n as [|n IH]; intros i output; cbn [Ilut.rows].
  - intros [= <- <-] Hinv. by rewrite N.add_0_r.
  - destruct (Ilut.eliminate_row _ _ _ _ _ _) as [[w1 output1]| |] eqn:Hrow; cbn; try done.
    intros Hrun Hinv. apply eliminate_row_spec in Hrow as [-> Hinv1]; [|done].
    apply IH in Hrun as [-> Hinv']; [|done]. split; [done|].
    by replace (i + N.of_nat (S n))%N with (N.succ i + N.of_nat n)%N by lia.
Qed.

(** Rows already run compose with the rows that follow. *)
Lemma rows_app n1 n2 i w (output : Output) :
  rows (n1 + n2) i w output
  = '(w', output') ← rows n1 i w output; rows n2 (i + N.of_nat n1) w' output'.
Proof.
  revert i w output. induction n1 as [|n1 IH]; intros i w output.
  - cbn. by rewrite N.add_0_r.
  - cbn [Nat.add Ilut.rows].
    destruct (Ilut.eliminate_row _ _ _ _ _ _) as [[w1 output1]| |]; cbn; try done.
    rewrite IH. by replace (N.succ i + N.of_nat n1)%N with (i + N.of_nat (S n1))%N by lia.
Qed.

(** C10 (as amended): when [precondition], started on empty output rows
    as [ilut_precond::init] provides them, returns without throwing, every
    output row [i] holds at most [entries_per_row] entries with a column
    index below [i] and at most [entries_per_row] with one above [i]; and it
    holds its diagonal entry whenever row [i] of the input has a stored
    entry on the diagonal. *)
Theorem ilut_rows_bounded (output output' : Output) :
  Forall (fun row => row = []) output →
  precondition output tag = ok output' →
  ∀ i row, (i < size1 A)%N → output' !! N.to_nat i = Some row →
    (stored_diagonal i → has_key i row) ∧
    (N.of_nat (count (fun j => j <? i)%N row) ≤ get_entries_per_row tag)%N ∧
    (N.of_nat (count (fun j => i <? j)%N row) ≤ get_entries_per_row tag)%N.
Proof.
  intros Hempty. unfold Ilut.precondition.
  destruct (Ilut.rows _ _ _ _ _ _ _) as [[w output1]| |] eqn:Hrows; cbn; try done.
  intros [= <-] i row Hi Hrow.
  apply rows_spec in Hrows as [_ Hinv].
  - destruct (Hinv _ _ Hrow) as [Hb _].
    rewrite N2Nat.id in Hb. apply Hb. lia.
  - intros r row0 Hr. split; [lia|]. intros _.
    by eapply (proj1 (Forall_lookup _ _) Hempty).
Qed.

End Matrix.
End IlutFacts.

(** *** The statements at sample matrices *)
Section IlutSamples.
Import Ilut.


(** [[0 1] [0 1]]: the factorisation returns, and row 0 of the result has
    no diagonal entry. *)
Lemma ilut_rows_bounded_counterexample :
  ∃ output row,
    Sample.precondition Sample.no_diagonal = ok output ∧
    output !! 0%nat = Some row ∧
    find 0 row = None.
Proof.
  eexists _, _. split; [vm_compute; reflexivity|]. split; reflexivity.
Qed.

Lemma ilut_rows_bounded_witness :
  Forall (fun row : list (N * Qc) => row = []) (LU_temp 2) ∧
  ∃ output,
    Sample.precondition Sample.regular = ok output ∧
    ∀ i row, (i < 2)%N → output !! N.to_nat i = Some row →
      has_key i row ∧
      (N.of_nat (count (fun j => j <? i)%N row) ≤ 20)%N ∧
      (N.of_nat (count (fun j => i <? j)%N row) ≤ 20)%N.
Proof.
  assert (Forall (fun row : list (N * Qc) => row = []) (LU_temp 2)) as Hempty
    by (repeat constructor).
  split; [exact Hempty|].
  assert (∃ output, Sample.precondition Sample.regular = ok output) as [output Hrun]
    by (eexists; vm_compute; reflexivity).
  exists output. split; [exact Hrun|].
  intros i row Hi Hrow.
  destruct (ilut_rows_bounded (fun x => x) Sample.regular Sample.tag
              (LU_temp 2) output Hempty Hrun i row Hi Hrow) as (Hd & HL & HU).
  split; [|split; [exact HL|exact HU]].
  apply Hd. unfold stored_diagonal.
  assert (i = 0 ∨ i = 1)%N as [-> | ->] by lia;
    eexists _, _; (split; [vm_compute; reflexivity|]); vm_compute; eauto.
Defined.
End IlutSamples.

(** * Further properties *)

(** ** The autotuner driver: range of [fill_matrix], the output of [main],
    [blas3_config] *)
Section FillMatrixFurther.
Import Blas3.
Variable RAND_MAX : Z.
Variable rand : nat → Z.

(** The element in row [i], column [j] exists in all three matrices. *)
Definition reaches (i j : N) (s : fill_state) : Prop :=
  ((i < size1 (cpu_A s))%N ∧ (j < size2 (cpu_A s))%N) ∧
  ((i < size1 (cpu_B s))%N ∧ (j < size2 (cpu_B s))%N) ∧
  ((i < size1 (cpu_C s))%N ∧ (j < size2 (cpu_C s))%N).

Lemma write_inr_range m i j v m' :
  write m i j v = inr m' → (i < size1 m)%N ∧ (j < size2 m)%N.
Proof.
  unfold write. destruct (N.ltb_spec i (size1 m)), (N.ltb_spec j (size2 m)); done.
Qed.

Lemma fill_body_reaches i j s s' :
  fill_body RAND_MAX rand i j s = inr s' → reaches i j s.
Proof.
  unfold fill_body, reaches.
  destruct (write (cpu_A s) i j _) as [|a] eqn:Ha; [done|].
  destruct (write (cpu_B s) i j _) as [|b] eqn:Hb; [done|].
  destruct (write (cpu_C s) i j _) as [|c] eqn:Hc; [done|].
  intros _. apply write_inr_range in Ha, Hb, Hc. done.
Qed.

Lemma reaches_same_sizes i j s s' : same_sizes s s' → reaches i j s' → reaches i j s.
Proof. unfold same_sizes, reaches. intros (HA & HB & HC). lia. Qed.

Lemma fill_columns_reaches n i j s s' :
  fill_columns RAND_MAX rand (S n) i j s = inr s' → reaches i (j + N.of_nat n) s.
Proof.
  revert j s. induction n as [|n IH]; intros j s; cbn [fill_columns].
  - destruct (fill_body RAND_MAX rand i j s) as [|s1] eqn:Hb; [done|]. intros _.
    rewrite N.add_0_r. by eapply fill_body_reaches.
  - destruct (fill_body RAND_MAX rand i j s) as [|s1] eqn:Hb; [done|]. intros Hrest.
    apply (reaches_same_sizes _ _ s s1); [by eapply fill_body_sizes|].
    replace (j + N.of_nat (S n))%N with (N.succ j + N.of_nat n)%N by lia.
    by apply IH.
Qed.

Lemma fill_rows_reaches n cols i s s' :
  (0 < cols)%N →
  fill_rows RAND_MAX rand (S n) cols i s = inr s' →
  reaches (i + N.of_nat n) (cols - 1) s.
Proof.
  intros Hcols. assert (∃ m, N.to_nat cols = S m ∧ (0 + N.of_nat m = cols - 1)%N)
    as (m & Hm & Hlast) by (exists (Nat.pred (N.to_nat cols)); lia).
  revert i s. induction n as [|n IH]; intros i s; cbn [fill_rows]; rewrite Hm.
  - destruct (fill_columns RAND_MAX rand (S m) i 0 s) as [|s1] eqn:Hc; [done|]. intros _.
    rewrite N.add_0_r, <- Hlast. by eapply fill_columns_reaches.
  - destruct (fill_columns RAND_MAX rand (S m) i 0 s) as [|s1] eqn:Hc; [done|].
    rewrite <- Hm. intros Hrest.
    apply (reaches_same_sizes _ _ s s1); [by eapply fill_columns_sizes|].
    replace (i + N.of_nat (S n))%N with (N.succ i + N.of_nat n)%N by lia.
    by apply IH.
Qed.

Lemma fill_rows_no_columns n i s : fill_rows RAND_MAX rand n 0 i s = inr s.
Proof. revert i. induction n as [|n IH]; intros i; [done|]. cbn. apply IH. Qed.

(** X1: [fill_matrix] keeps its writes inside the three host matrices
    exactly when [A] is empty or the dimensions of [A] fit [B] and both are
    at most [C.size1()]: the number of columns of [C] plays no part, since
    [cpu_C] is created [C.size1()] by [C.size1()]. *)
Theorem fill_matrix_in_range A B C :
  (∃ s, fill_matrix RAND_MAX rand A B C = inr s) ↔
  (fst A = 0 ∨ snd A = 0 ∨
   (fst A ≤ fst B ∧ snd A ≤ snd B) ∧ (fst A ≤ fst C ∧ snd A ≤ fst C))%N.
Proof.
  destruct A as [rA cA], B as [rB cB], C as [rC cC]. unfold fill_matrix. cbn [fst snd].
  split.
  - intros [s Hs].
    destruct (N.eq_dec rA 0%N) as [|HrA]; [by left|].
    destruct (N.eq_dec cA 0%N) as [|HcA]; [by right; left|]. right. right.
    assert (∃ n, N.to_nat rA = S n ∧ (0 + N.of_nat n = rA - 1)%N) as (n & Hn & Hlast)
      by (exists (Nat.pred (N.to_nat rA)); lia).
    rewrite Hn in Hs. apply fill_rows_reaches in Hs; [|lia].
    rewrite Hlast in Hs. unfold reaches in Hs. cbn in Hs. lia.
  - intros [->|[->|[[HB1 HB2] [HC1 HC2]]]].
    + by eexists.
    + eexists. apply fill_rows_no_columns.
    + destruct (fill_rows_spec RAND_MAX rand rA cA (N.to_nat rA) 0
                  {| cpu_A := new_matrix rA cA; cpu_B := new_matrix rB cB;
                     cpu_C := new_matrix rC rC; rand_calls := 0 |})
        as (s & Hs & _); [lia| |by exists s].
      split; cbn [cpu_A cpu_B cpu_C rand_calls]; unfold fits, new_matrix, draw;
        cbn [size1 size2]; intros; lia.
Qed.
End FillMatrixFurther.

Section MainFurther.
Import Blas3.
Context {profile world : Type}.
Variable benchmark : world → @benchmark_call profile → @timings_t profile → @timings_t profile * world.
Variable RAND_MAX : Z.
Variable srand_time : world → nat → Z.
Variable switch_context : nat → world → world.
Variable switch_device : device_info → world → world.

Local Abbreviation tune_device := (tune_device benchmark RAND_MAX srand_time switch_device).
Local Abbreviation main := (main benchmark RAND_MAX srand_time switch_context switch_device).

(** X2: a device number that no device has (negative numbers included,
    which wrap around to large ones) makes [main] run through both loops:
    nothing is printed, nothing is tuned, and control reaches the end of
    [main]. *)
Theorem main_no_such_device args platforms w a1 d a2 l scalartype :
  args !! 1%nat = Some a1 → atoi a1 = inr d →
  args !! 2%nat = Some a2 → atoi a2 = inr l →
  args !! 3%nat = Some scalartype →
  (Z.of_nat (List.length (List.concat platforms)) ≤ to_unsigned_int d)%Z →
  main args platforms w
  = {| cout := []; cerr := []; tuning := []; result := returned 0 |}.
Proof.
  intros H1 Hd H2 Hl H3 Hnone.
  rewrite (main_enters_loops _ _ _ _ _ _ _ _ _ _ _ _ _ H1 Hd H2 Hl H3).
  pose proof (to_unsigned_int_range d) as Hr.
  pose proof (platforms_loop_spec benchmark RAND_MAX srand_time switch_context
                switch_device (to_unsigned_int d) (to_unsigned_int l) scalartype
                platforms 0 0%Z w ltac:(lia) ltac:(lia)) as Hloop.
  rewrite Z.sub_0_r in Hloop.
  rewrite (proj2 (lookup_ge_None _ _)) in Hloop by lia. exact Hloop.
Qed.

(** The line the [switch] prints for a layout, whatever the scalar type. *)
Definition step_line (layout : Z) : list string :=
  match layout with
  | 0%Z => ["====== Step 1 : AA ====="]
  | 1%Z => ["====== Step 3 : TA ====="]
  | 2%Z => ["====== Step 2 : AT ====="]
  | 3%Z => ["====== Step 4 : TT ====="]
  | _ => []
  end.

Lemma tune_device_cout layout scalartype it w :
  cout (tune_device layout scalartype it w)
  = [ "-------------------";
      "Recording timings for : " +:+ dev_name it;
      "Vendor ID : " +:+ to_string (vendor_id it);
      "Matrix - Matrix Multiplication ";
      "-------------------";
      " Scalartype : " +:+ scalartype;
      "-------------------" ] ++ step_line layout.
Proof.
  unfold Blas3.tune_device.
  assert (fst (switch_layout layout scalartype) = step_line layout) as Hstep
    by (by destruct layout as [|[[]|[]|]|]).
  destruct (switch_layout layout scalartype) as [step call]. cbn [fst] in Hstep. subst step.
  destruct call as [[[NumericT lhs] rhs]|]; [|reflexivity].
  destruct (run_autotune _ _ _ _ _ _ _) as [u|st]; reflexivity.
Qed.

(** X3: at the requested device [main] prints the seven header lines,
    with the name and vendor of the device and the scalar type as given,
    and then the step line of the layout.  The step line depends on the
    layout alone: it is printed for a scalar type that is neither "float"
    nor "double" as well, and no line at all for a layout above 3. *)
Theorem main_header args platforms w a1 d a2 l scalartype it :
  args !! 1%nat = Some a1 → atoi a1 = inr d →
  args !! 2%nat = Some a2 → atoi a2 = inr l →
  args !! 3%nat = Some scalartype →
  List.concat platforms !! Z.to_nat (to_unsigned_int d) = Some it →
  cout (main args platforms w)
  = [ "-------------------";
      "Recording timings for : " +:+ dev_name it;
      "Vendor ID : " +:+ to_string (vendor_id it);
      "Matrix - Matrix Multiplication ";
      "-------------------";
      " Scalartype : " +:+ scalartype;
      "-------------------" ] ++ step_line (to_unsigned_int l).
Proof.
  intros H1 Hd H2 Hl H3 Hit.
  destruct (main_selects_device benchmark RAND_MAX srand_time switch_context
              switch_device args platforms w _ _ _ _ _ _ H1 Hd H2 Hl H3 Hit) as [w' ->].
  apply tune_device_cout.
Qed.
End MainFurther.

Section ConfigFurther.
Import Blas3.

Lemma at_current_inr params name v :
  at_current params name = inr v ↔ params !! name = Some v.
Proof. unfold at_current. destruct (params !! name); split; congruence. Qed.

(** X4: [create_profile] reads exactly the ten parameters that
    [run_autotune] registers: it returns a profile when the map holds all
    the names of [conf], and throws [std::out_of_range] when one of them
    is missing. *)
Theorem create_profile_reads_conf (params : gmap string N) :
  (∃ prof, create_profile params = inr prof) ↔
  ∀ p, p ∈ conf → is_Some (params !! param_name p).
Proof.
  unfold create_profile, at_current. split.
  - intros [prof Hprof] p Hp.
    repeat (apply elem_of_cons in Hp as [->|Hp]); cbn [param_name];
      try (by apply elem_of_nil in Hp);
      repeat case_match; try done; by eexists.
  - intros Hall.
    assert (∀ name lo hi i,
              In {| param_name := name; param_min := lo; param_max := hi; param_inc := i |}
                 conf →
              is_Some (params !! name)) as Hnames.
    { intros name lo hi i Hin. apply (Hall _ (proj2 (list_elem_of_In _ _) Hin)). }
    destruct (Hnames "ml" 16 256 mul_by_two)%N as [? ->]; [cbn; tauto|].
    destruct (Hnames "kl" 16 256 mul_by_two)%N as [? ->]; [cbn; tauto|].
    destruct (Hnames "nl" 16 256 mul_by_two)%N as [? ->]; [cbn; tauto|].
    destruct (Hnames "ms" 2 16 mul_by_two)%N as [? ->]; [cbn; tauto|].
    destruct (Hnames "ks" 2 16 mul_by_two)%N as [? ->]; [cbn; tauto|].
    destruct (Hnames "ns" 2 16 mul_by_two)%N as [? ->]; [cbn; tauto|].
    destruct (Hnames "lhs_storage" 1 1 add_one)%N as [? ->]; [cbn; tauto|].
    destruct (Hnames "rhs_storage" 0 0 add_one)%N as [? ->]; [cbn; tauto|].
    destruct (Hnames "vector" 1 4 mul_by_two)%N as [? ->]; [cbn; tauto|].
    destruct (Hnames "unroll" 1 1 mul_by_two)%N as [? ->]; [cbn; tauto|].
    by eexists.
Qed.

(** Every parameter has a current value between the bounds it was
    registered with. *)
Definition within_conf (params : gmap string N) : Prop :=
  ∀ p, p ∈ conf →
    ∃ v, params !! param_name p = Some v ∧ (param_min p ≤ v ≤ param_max p)%N.

(** X5: on the parameter space of [run_autotune], every profile that
    [create_profile] builds has [lhs_storage] set and [rhs_storage]
    cleared, [unroll] at 1, and the other parameters within the bounds
    they were registered with. *)
Theorem create_profile_within_conf (params : gmap string N) :
  within_conf params →
  ∃ prof, create_profile params = inr prof ∧
    lhs_storage prof = true ∧ rhs_storage prof = false ∧ unroll prof = 1%N ∧
    (16 ≤ ml prof ≤ 256 ∧ 16 ≤ kl prof ≤ 256 ∧ 16 ≤ nl prof ≤ 256)%N ∧
    (2 ≤ ms prof ≤ 16 ∧ 2 ≤ ks prof ≤ 16 ∧ 2 ≤ ns prof ≤ 16)%N ∧
    (1 ≤ vector prof ≤ 4)%N.
Proof.
  intros Hall.
  assert (∀ name lo hi i,
            In {| param_name := name; param_min := lo; param_max := hi; param_inc := i |} conf →
            ∃ v, params !! name = Some v ∧ (lo ≤ v ≤ hi)%N) as Hnames.
  { intros name lo hi i Hin. apply (Hall _ (proj2 (list_elem_of_In _ _) Hin)). }
  unfold create_profile, at_current.
  destruct (Hnames "ml" 16 256 mul_by_two)%N as (? & -> & ?); [cbn; tauto|].
  destruct (Hnames "kl" 16 256 mul_by_two)%N as (? & -> & ?); [cbn; tauto|].
  destruct (Hnames "nl" 16 256 mul_by_two)%N as (? & -> & ?); [cbn; tauto|].
  destruct (Hnames "ms" 2 16 mul_by_two)%N as (? & -> & ?); [cbn; tauto|].
  destruct (Hnames "ks" 2 16 mul_by_two)%N as (? & -> & ?); [cbn; tauto|].
  destruct (Hnames "ns" 2 16 mul_by_two)%N as (? & -> & ?); [cbn; tauto|].
  destruct (Hnames "lhs_storage" 1 1 add_one)%N as (lhs & -> & ?); [cbn; tauto|].
  destruct (Hnames "rhs_storage" 0 0 add_one)%N as (rhs & -> & ?); [cbn; tauto|].
  destruct (Hnames "vector" 1 4 mul_by_two)%N as (? & -> & ?); [cbn; tauto|].
  destruct (Hnames "unroll" 1 1 mul_by_two)%N as (? & -> & ?); [cbn; tauto|].
  eexists. split; [reflexivity|]. cbn.
  assert (lhs = 1 ∧ rhs = 0)%N as [-> ->] by lia. cbn. repeat split; lia.
Qed.
End ConfigFurther.

(** ** The kernel-body emitter: text is only appended, loop names *)
Section GeneratorFurther.
Import Generator.
Context {symbol hidden : Type}.

Local Abbreviation type := (@type symbol).
Local Abbreviation predicate := (@predicate symbol).
Local Abbreviation emitter := (@emitter hidden).
Local Abbreviation code_state := (@code_state hidden).
Local Abbreviation updates_state := (@updates_state hidden).

Variable is_assignment : predicate.
Variable is_symbolic_vector : predicate.
Variable is_symbolic_matrix : predicate.
Variable is_symbolic_gpu_scalar : predicate.
Variable is_assignment_compound : predicate.
Variable is_inner_product_impl : predicate.
Variable is_inner_product_leaf : predicate.
Variable is_product_leaf : predicate.
Variable is_null_type : predicate.
Variable or_is : predicate → predicate → predicate.
Variable get_type_if : type → type → bool → type.
Variable get_operations_from_expressions : type → type.
Variable extract_if : type → predicate → type.
Variable extract_if_unique : type → predicate → type.
Variable count_if : type → predicate → N.
Variable no_duplicates : type → type.
Variable expression_type : type → type.
Variable make_expression_code : type → string → emitter.
Variable name : type → emitter.
Variable declarations_of : type → emitter.
Variable assignements_of : type → emitter.
Variable internal_size_expression : type → emitter.
Variable make_code_value : type → emitter.
Variable make_code_sum : type → emitter.
Variable make_code_reduction : type → emitter.

Local Abbreviation functor_execute :=
  (functor_execute count_if make_expression_code name).
Local Abbreviation functor_for_each :=
  (functor_for_each count_if make_expression_code name).
Local Abbreviation fill_expression_updates :=
  (fill_expression_updates count_if make_expression_code name).

Lemma string_app_assoc (a b c : string) : (a +:+ b) +:+ c = a +:+ b +:+ c.
Proof.
  induction a as [|x a IH]; [done|].
  change (String x ((a +:+ b) +:+ c) = String x (a +:+ b +:+ c)). by f_equal.
Qed.

Lemma string_app_nil_r (a : string) : a +:+ EmptyString = a.
Proof.
  induction a as [|x a IH]; [done|].
  change (String x (a +:+ EmptyString) = String x a). by f_equal.
Qed.

(** A step on a string passed by reference that leaves what is there and
    writes behind it. *)
Definition appends (f : code_state → code_state) : Prop :=
  ∀ s, ∃ text, fst (f s) = fst s +:+ text.

Definition updates_appends (f : updates_state → updates_state) : Prop :=
  ∀ s, ∃ text, generated_code (f s) = generated_code s +:+ text.

Lemma appends_id : appends (fun s => s).
Proof. intros s. exists EmptyString. by rewrite string_app_nil_r. Qed.

Lemma appends_compose f g : appends f → appends g → appends (fun s => g (f s)).
Proof.
  intros Hf Hg s. destruct (Hf s) as [t Ht], (Hg (f s)) as [u Hu].
  exists (t +:+ u). by rewrite Hu, Ht, string_app_assoc.
Qed.

Lemma appends_after f (s : code_state) base :
  appends f → (∃ text, fst s = base +:+ text) → ∃ text, fst (f s) = base +:+ text.
Proof.
  intros Hf [t Ht]. destruct (Hf s) as [u Hu].
  exists (t +:+ u). by rewrite Hu, Ht, string_app_assoc.
Qed.

Lemma add_appends e : appends (add e).
Proof. intros [c h]. unfold add. cbn. destruct (e h) as [text h']. by exists text. Qed.

Lemma add_string_appends text : appends (@add_string hidden text).
Proof. intros [c h]. by exists text. Qed.

Lemma ForEach_appends (functor : type → code_state → code_state) TList :
  (∀ T, appends (functor T)) → appends (ForEach functor TList).
Proof.
  intros Hf.
  induction TList as [ | sym | L IHL O IHO R IHR | B IHB Es IHEs | Hd IHHd Tl IHTl
                     | E1 IH1 O1 IH2 A1 IH3 | E1 IH1 O1 IH2 A1 IH3 | E1 IH1 n | E1 IH1 ];
    cbn [ForEach]; try apply appends_id.
  apply (appends_compose (functor Hd) (ForEach functor Tl)); [apply Hf|apply IHTl].
Qed.

(** The equations of the two mutually recursive functions. *)
Lemma functor_execute_repeater Pred Bound Expressions (s : updates_state) :
  functor_execute Pred (repeater_impl Bound Expressions) s
  = if (0 <? count_if Expressions Pred)%N then
      let repeater_name := "Repeat" +:+ to_string (nested_repeats_counter s) in
      append_string ("}" +:+ LF)
        (functor_for_each Pred Expressions
           {| generated_code := generated_code s +:+
                ("for(int " +:+ repeater_name +:+ " = 0 ; " +:+ repeater_name +:+ " < "
                 +:+ fst (name Bound (helpers s)) +:+ " ; ++" +:+ repeater_name
                 +:+ "){" +:+ LF);
              nested_repeats_counter := (nested_repeats_counter s + 1) mod 2 ^ 32;
              helpers := snd (name Bound (helpers s)) |})
    else s.
Proof.
  cbn [Generator.functor_execute]. destruct (0 <? count_if Expressions Pred)%N; [|done].
  by destruct (name Bound (helpers s)).
Qed.

Lemma functor_execute_leaf Pred T (s : updates_state) :
  (∀ Bound Expressions, T ≠ repeater_impl Bound Expressions) →
  functor_execute Pred T s
  = if Pred T then
      {| generated_code := generated_code s +:+
           (fst (make_expression_code T "gid" (helpers s)) +:+ ";" +:+ LF);
         nested_repeats_counter := nested_repeats_counter s;
         helpers := snd (make_expression_code T "gid" (helpers s)) |}
    else s.
Proof.
  intros Hleaf. destruct T; try (by destruct (Hleaf _ _ eq_refl));
    cbn [Generator.functor_execute]; (destruct (Pred _); [|done]);
    by destruct (make_expression_code _ _ _).
Qed.

Lemma functor_for_each_typelist Pred Head Tail (s : updates_state) :
  functor_for_each Pred (typelist Head Tail) s
  = functor_for_each Pred Tail (functor_execute Pred Head s).
Proof. reflexivity. Qed.

Lemma functor_for_each_end Pred T (s : updates_state) :
  (∀ Head Tail, T ≠ typelist Head Tail) → functor_for_each Pred T s = s.
Proof. intros Hend. destruct T; try done. by destruct (Hend _ _ eq_refl). Qed.

Lemma functor_appends Pred T :
  updates_appends (functor_execute Pred T) ∧ updates_appends (functor_for_each Pred T).
Proof.
  assert (∀ s : updates_state, ∃ text, generated_code s = generated_code s +:+ text) as Hid.
  { intros s. exists EmptyString. by rewrite string_app_nil_r. }
  induction T as [ | sym | L IHL O IHO R IHR | B IHB Es IHEs | Hd IHHd Tl IHTl
                 | E1 IH1 O1 IH2 A1 IH3 | E1 IH1 O1 IH2 A1 IH3 | E1 IH1 n | E1 IH1 ];
    (split; [|try (intros s; rewrite functor_for_each_end by done; apply Hid)]);
    try (intros s; rewrite functor_execute_leaf by done; destruct (Pred _); [|apply Hid];
         cbn [generated_code]; by eexists).
  - intros s. rewrite functor_execute_repeater.
    destruct (0 <? count_if Es Pred)%N; [|apply Hid]. cbn zeta.
    match goal with
    | |- context [Generator.functor_for_each _ _ _ Pred Es ?s0] =>
      destruct (proj2 IHEs s0) as [text Htext]
    end.
    unfold append_string. cbn [generated_code] in *. rewrite Htext.
    eexists. rewrite !string_app_assoc. reflexivity.
  - intros s. rewrite functor_for_each_typelist.
    destruct (proj1 IHHd s) as [t Ht].
    destruct (proj2 IHTl (functor_execute Pred Hd s)) as [u Hu].
    exists (t +:+ u). by rewrite Hu, Ht, string_app_assoc.
Qed.

Lemma fill_expression_updates_appends TList Pred :
  appends (fill_expression_updates TList Pred).
Proof.
  intros [c h]. unfold Generator.fill_expression_updates. cbn [fst snd].
  destruct (proj2 (functor_appends Pred TList)
              {| generated_code := c; nested_repeats_counter := 0; helpers := h |})
    as [text Htext].
  exists text. exact Htext.
Qed.

(** The for-loops a traversal opens: a [Repeat] block counts when it has
    an expression the predicate accepts, and so do those inside it. *)
Fixpoint opened_loops (Pred : predicate) (T : type) : N :=
  match T with
  | repeater_impl Bound Expressions =>
    if (0 <? count_if Expressions Pred)%N
    then 1 + opened_loops_list Pred Expressions
    else 0
  | _ => 0
  end
with opened_loops_list (Pred : predicate) (TList : type) : N :=
  match TList with
  | typelist Head Tail => opened_loops Pred Head + opened_loops_list Pred Tail
  | _ => 0
  end.

Lemma functor_counter Pred T :
  (∀ s, (nested_repeats_counter s < 2 ^ 32)%N →
        nested_repeats_counter (functor_execute Pred T s)
        = ((nested_repeats_counter s + opened_loops Pred T) mod 2 ^ 32)%N) ∧
  (∀ s, (nested_repeats_counter s < 2 ^ 32)%N →
        nested_repeats_counter (functor_for_each Pred T s)
        = ((nested_repeats_counter s + opened_loops_list Pred T) mod 2 ^ 32)%N).
Proof.
  assert (∀ n, (n < 2 ^ 32 → n = (n + 0) mod 2 ^ 32)%N) as Hid.
  { intros n Hn. rewrite N.add_0_r. by rewrite N.mod_small. }
  induction T as [ | sym | L IHL O IHO R IHR | B IHB Es IHEs | Hd IHHd Tl IHTl
                 | E1 IH1 O1 IH2 A1 IH3 | E1 IH1 O1 IH2 A1 IH3 | E1 IH1 n | E1 IH1 ];
    (split; [|try (intros s Hs; rewrite functor_for_each_end by done; by apply Hid)]);
    try (intros s Hs; rewrite functor_execute_leaf by done; destruct (Pred _);
         by apply Hid).
  - intros s Hs. rewrite functor_execute_repeater. cbn [opened_loops].
    destruct (0 <? count_if Es Pred)%N; [|by apply Hid]. cbn zeta.
    unfold append_string. cbn [nested_repeats_counter].
    rewrite (proj2 IHEs); cbn [nested_repeats_counter].
    + rewrite N.Div0.add_mod_idemp_l. f_equal. lia.
    + apply N.mod_lt. lia.
  - intros s Hs. rewrite functor_for_each_typelist.
    change (opened_loops_list Pred (typelist Hd Tl))
      with (opened_loops Pred Hd + opened_loops_list Pred Tl)%N.
    rewrite (proj2 IHTl), (proj1 IHHd) by (try rewrite (proj1 IHHd) by done;
                                            try apply N.mod_lt; done).
    rewrite N.Div0.add_mod_idemp_l. f_equal. lia.
Qed.

(** X6: the counter that names the loops is advanced when a loop is
    opened and never set back when it is closed: after a traversal it has
    grown by the number of loops opened, nested or not (modulo 2^32).  Two
    [Repeat] blocks in a row therefore get different names, and the number
    in a name is not the nesting depth. *)
Theorem loop_counter_counts_opened_loops Pred TList (s : updates_state) :
  (nested_repeats_counter s < 2 ^ 32)%N →
  nested_repeats_counter (functor_for_each Pred TList s)
  = ((nested_repeats_counter s + opened_loops_list Pred TList) mod 2 ^ 32)%N.
Proof. apply functor_counter. Qed.

Section Operations.
Variable ExpressionsList : type.

Local Abbreviation declarations :=
  (declarations get_operations_from_expressions extract_if no_duplicates declarations_of
     ExpressionsList).
Local Abbreviation assignements :=
  (assignements is_assignment_compound get_operations_from_expressions extract_if
     no_duplicates assignements_of ExpressionsList).
Local Abbreviation value :=
  (value is_assignment is_symbolic_vector is_symbolic_matrix is_symbolic_gpu_scalar
     is_assignment_compound is_inner_product_impl is_inner_product_leaf is_product_leaf
     is_null_type or_is get_type_if get_operations_from_expressions extract_if
     extract_if_unique count_if no_duplicates expression_type make_expression_code name
     declarations_of assignements_of internal_size_expression make_code_value
     make_code_sum make_code_reduction ExpressionsList).

Lemma declarations_appends Pred : appends (declarations Pred).
Proof. unfold Generator.declarations. apply ForEach_appends. intros T. apply add_appends. Qed.

Lemma assignements_appends Pred : appends (assignements Pred).
Proof. unfold Generator.assignements. apply ForEach_appends. intros T. apply add_appends. Qed.

(** X7: whatever the helpers return, and whatever state they keep, the
    text of [body_code::value()] is one block: it opens with a brace and a
    line feed and closes with a brace and a line feed, everything else
    standing in between. *)
Theorem body_code_value_block h :
  ∃ middle, fst (value h) = "{" +:+ LF +:+ middle +:+ "}" +:+ LF.
Proof.
  unfold Generator.value.
  assert (∀ (s : code_state) base,
            (∃ text, fst s = base +:+ text) →
            ∃ middle, fst (add_string ("}" +:+ LF) s) = base +:+ middle +:+ "}" +:+ LF)
    as Hclose.
  { intros s base [text Htext]. exists text. cbn. by rewrite Htext, string_app_assoc. }
  change ("{" +:+ LF +:+ ?m) with (("{" +:+ LF) +:+ m).
  apply Hclose with (base := "{" +:+ LF).
  apply (appends_after (assignements _)); [apply assignements_appends|].
  apply (appends_after (fill_expression_updates _ _));
    [apply fill_expression_updates_appends|].
  apply (appends_after (add _)); [apply add_appends|].
  match goal with
  | |- ∃ text, fst (if ?b then add ?e ?s else ?s) = _ =>
    assert (∀ text, (∃ t, fst s = text +:+ t) →
                    ∃ t, fst (if b then add e s else s) = text +:+ t) as Hif
  end.
  { intros text Hs. destruct (_ <? _)%N; [|exact Hs].
    apply (appends_after (add _)); [apply add_appends|exact Hs]. }
  apply Hif. clear Hif.
  apply (appends_after (add _)); [apply add_appends|].
  do 3 (apply (appends_after (declarations _)); [apply declarations_appends|]).
  exists EmptyString. cbn. by rewrite string_app_nil_r.
Qed.
End Operations.
End GeneratorFurther.

(** ** [ilut_tag]: the setters keep the parameters positive *)
Section TagFurther.
Import Ilut.
Context {double : Type} {double_ops : Numeric double}.

(** A call of one of the three setters of [ilut_tag]. *)
Inductive tag_call :=
| call_set_drop_tolerance (tol : double)
| call_set_entries_per_row (e : N)
| call_use_level_scheduling (b : bool).

(** [use_level_scheduling(bool b)], line 77. *)
Definition use_level_scheduling (tag : @ilut_tag double) (b : bool) : ilut_tag :=
  {| entries_per_row_ := entries_per_row_ tag;
     drop_tolerance_ := drop_tolerance_ tag;
     use_level_scheduling_ := b |}.

Definition call (tag : @ilut_tag double) (c : tag_call) : ilut_tag :=
  match c with
  | call_set_drop_tolerance tol => set_drop_tolerance tag tol
  | call_set_entries_per_row e => set_entries_per_row tag e
  | call_use_level_scheduling b => use_level_scheduling tag b
  end.

(** X8: a tag constructed with a positive number of entries per row and
    a positive drop tolerance keeps both positive under any sequence of
    setter calls: a setter ignores an argument that is not positive. *)
Theorem ilut_tag_stays_positive (tag : @ilut_tag double) (calls : list tag_call) :
  (0 < get_entries_per_row tag)%N →
  num_ltb num_zero (get_drop_tolerance tag) = true →
  (0 < get_entries_per_row (foldl call tag calls))%N ∧
  num_ltb num_zero (get_drop_tolerance (foldl call tag calls)) = true.
Proof.
  revert tag. induction calls as [|c calls IH]; intros tag He Ht; [done|].
  cbn [foldl]. destruct c as [tol|e|b]; cbn [call].
  - unfold set_drop_tolerance. destruct (num_ltb num_zero tol) eqn:Htol; by apply IH.
  - unfold set_entries_per_row. destruct (N.ltb_spec 0 e); by apply IH.
  - by apply IH.
Qed.
End TagFurther.


(** ** The ILUT factorisation: shape of the factor, other failures *)
Section IlutFurther.
Import Ilut.
Context {double NumericT : Type} {double_ops : Numeric double}
  {numeric_ops : Numeric NumericT}.
Variable static_cast : double → NumericT.

Local Abbreviation sparse_vector := (list (N * NumericT)).
Local Abbreviation Output := (list (list (N * NumericT))).

(** Keys in strictly ascending order, as the iterators of a [std::map]
    visit them. *)
Fixpoint ascending (m : sparse_vector) : Prop :=
  match m with
  | [] => True
  | e :: m' => Forall (fun e' => (fst e < fst e')%N) m' ∧ ascending m'
  end.

Lemma In_assign k v e (m : sparse_vector) :
  In e (assign k v m) → e = (k, v) ∨ In e m.
Proof.
  induction m as [|[k' v'] m IH]; cbn; [intuition congruence|].
  destruct (k <? k')%N; cbn; [intuition congruence|].
  destruct (k =? k')%N; cbn; intuition congruence.
Qed.

Lemma assign_ascending k v (m : sparse_vector) :
  ascending m → ascending (assign k v m).
Proof.
  induction m as [|[k' v'] m IH]; cbn; [by split|]. intros [Hhead Htail].
  destruct (N.ltb_spec k k'); [|destruct (N.eqb_spec k k') as [->|Hne]]; cbn.
  - split; [|by split]. constructor; [done|].
    eapply Forall_impl; [exact Hhead|]. cbn. intros e He. lia.
  - by split.
  - split; [|by apply IH]. apply List.Forall_forall. intros e [->|He]%In_assign.
    + cbn. lia.
    + by apply (proj1 (List.Forall_forall _ _) Hhead).
Qed.

Lemma index_ascending k (m : sparse_vector) :
  ascending m → ascending (snd (index m k)).
Proof. unfold index. destruct (find k m); [done|]. apply assign_ascending. Qed.

(** *** What holds of every row holds of the result *)

Section Closed.
(** A property of rows that assignments keep. *)
Variable P : sparse_vector → Prop.
Hypothesis P_assign : ∀ j v row, P row → P (assign j v row).

Lemma P_index k row : P row → P (snd (index row k)).
Proof. unfold index. destruct (find k row); [done|]. apply P_assign. Qed.

Lemma line3_rows i tau_i w_k (w : sparse_vector) (output : Output) w' output' :
  line3 i tau_i w_k w output = ok (w', output') → Forall P output → Forall P output'.
Proof.
  intros Hrun Hall.
  apply (line3_invariant (fun _ output1 => Forall P output1) i tau_i)
    with (w_k := w_k) (w := w) (output := output) (w' := w'); [|done|done].
  clear Hrun Hall w_k w output w' output'.
  intros k w output w' output' _ Hall. unfold line3_body.
  destruct (subscript _ _) as [row_k| |] eqn:Hrow; cbn; try done.
  apply subscript_ok in Hrow.
  destruct (index _ _) as [a_kk row_k'] eqn:Hindex.
  destruct (is_zero a_kk); [done|].
  destruct (find _ _) as [w_k_second|]; [|done].
  assert (Forall P (<[N.to_nat k := row_k']> output)) as Hall'.
  { apply Forall_insert; [done|]. change row_k' with (snd (a_kk, row_k')).
    rewrite <- Hindex. apply P_index.
    by eapply (proj1 (Forall_lookup _ _) Hall). }
  by case_match; intros [= <- <-].
Qed.

Lemma write_row_rows i (tag : @ilut_tag double) iter counters (output output' : Output) :
  write_row i tag iter counters output = ok output' → Forall P output → Forall P output'.
Proof.
  revert counters output.
  induction iter as [|[a [j v]] iter IH]; intros counters output; cbn [write_row].
  - by intros [= <-].
  - destruct (subscript _ _) as [row_i| |] eqn:Hsub; cbn; try done.
    apply subscript_ok in Hsub. intros Hrun Hall.
    assert (Forall P (<[N.to_nat i := assign j v row_i]> output)) as Hall'.
    { apply Forall_insert; [done|]. apply P_assign.
      by eapply (proj1 (Forall_lookup _ _) Hall). }
    repeat case_match; by eapply IH.
Qed.

Lemma rows_rows {M : Type} {matrix_ops : @SparseMatrixTypeT NumericT M}
    (A : M) tag n i w (output : Output) w' output' :
  rows static_cast A tag n i w output = ok (w', output') →
  Forall P output → Forall P output'.
Proof.
  revert i w output. induction n as [|n IH]; intros i w output; cbn [rows].
  - by intros [= <- <-].
  - unfold eliminate_row.
    destruct (setup_w A i w) as [[row_norm w1]| |]; cbn; try done.
    destruct (line3 _ _ _ _ _) as [[w2 output2]| |] eqn:Hline3; cbn; try done.
    destruct (line10 _ _ _ _) as [temp_map| |]; cbn; try done.
    destruct (write_row _ _ _ _ _) as [output3| |] eqn:Hwrite; cbn; try done.
    intros Hrun Hall. eapply IH; [exact Hrun|].
    eapply write_row_rows; [exact Hwrite|]. by eapply line3_rows.
Qed.
End Closed.

Lemma count_three_ways i (m : sparse_vector) :
  List.length m
  = (count (fun j => j <? i)%N m + count (fun j => j =? i)%N m
     + count (fun j => i <? j)%N m)%nat.
Proof.
  unfold count. induction m as [|[k v] m IH]; cbn; [done|].
  destruct (N.ltb_spec k i), (N.eqb_spec k i), (N.ltb_spec i k); cbn; lia.
Qed.

Lemma count_key_ascending i (m : sparse_vector) :
  ascending m → (count (fun j => j =? i)%N m ≤ 1)%nat.
Proof.
  unfold count. induction m as [|[k v] m IH]; cbn; [lia|]. intros [Hhead Htail].
  destruct (N.eqb_spec k i) as [->|Hne]; cbn; [|by apply IH].
  assert (List.filter (fun e : N * NumericT => (fst e =? i)%N) m = []) as ->; [|cbn; lia].
  clear -Hhead. induction m as [|[k' v'] m IH]; cbn; [done|].
  inversion Hhead as [|? ? Hk Hrest]; subst. cbn in Hk.
  destruct (N.eqb_spec k' i); [lia|]. by apply IH.
Qed.

Section Matrix.
Context {M : Type} {matrix_ops : @SparseMatrixTypeT NumericT M}.
Variable A : M.
Variable tag : @ilut_tag double.

(** X9: when [precondition], started on fresh rows as [init] starts it,
    returns, every row of the factor is a well-formed [std::map], keys
    ascending without repetition, and no row holds more than
    [2 * entries_per_row + 1] entries: [entries_per_row] on either side of
    the diagonal, and the diagonal. *)
Theorem ilut_factor_row_length (output : Output) :
  init static_cast A tag = ok output →
  ∀ i row, output !! i = Some row →
    ascending row ∧
    (N.of_nat (List.length row) ≤ 2 * get_entries_per_row tag + 1)%N.
Proof.
  unfold init, precondition.
  destruct (rows _ _ _ _ _ _ _) as [[w output1]| |] eqn:Hrows; cbn; try done.
  intros [= <-] i row Hrow.
  assert (Forall (fun row : sparse_vector => row = []) (LU_temp (size1 A))) as Hempty.
  { apply Forall_forall. intros x Hx. by apply elem_of_replicate in Hx as [-> _]. }
  assert (ascending row) as Hasc.
  { eapply (proj1 (Forall_lookup _ _)); [|exact Hrow].
    eapply (rows_rows ascending); [apply assign_ascending|exact Hrows|].
    eapply Forall_impl; [exact Hempty|]. by intros ? ->. }
  split; [exact Hasc|].
  apply rows_spec in Hrows as [_ Hinv].
  - destruct (Hinv _ _ Hrow) as [Hb He].
    destruct (N.lt_ge_cases (N.of_nat i) (0 + N.of_nat (N.to_nat (size1 A)))) as [Hlt|Hge].
    + destruct (Hb Hlt) as (_ & HL & HU).
      rewrite (count_three_ways (N.of_nat i) row).
      pose proof (count_key_ascending (N.of_nat i) row Hasc). lia.
    + rewrite (He Hge). cbn. lia.
  - intros r row0 Hr. split; [lia|]. intros _.
    by eapply (proj1 (Forall_lookup _ _) Hempty).
Qed.




End Matrix.

(** *** Diagonal matrices *)

(** The matrix with the entries of [d] on its diagonal and nothing else
    stored. *)
Definition diagonal_matrix (d : list NumericT) : list sparse_vector :=
  imap (fun i x => [(N.of_nat i, x)]) d.

Lemma eliminate_diagonal_row tag (d : list NumericT) i x (output : Output) :
  d !! i = Some x →
  num_leb (num_fabs x) num_zero = false →
  output !! i = Some [] →
  eliminate_row static_cast (diagonal_matrix d) tag (N.of_nat i) [] output
  = ok ([], <[i := [(N.of_nat i, x)]]> output).
Proof.
  intros Hx Hnz Hrow. unfold eliminate_row. cbn [setup_w stl_matrix].
  unfold setup_w_stl, subscript.
  replace (N.to_nat (N.of_nat i)) with i by lia.
  unfold diagonal_matrix at 1. rewrite list_lookup_imap, Hx. cbn [fmap option_fmap option_map mbind result_bind mret result_ret].
  cbn [begin head fmap option_fmap option_map fst].
  rewrite line3_break by lia. cbn [mbind result_bind line10].
  rewrite N.eqb_refl, orb_true_r, Hnz. cbn [multimap_insert rev app mbind result_bind mret result_ret write_row].
  unfold subscript. replace (N.to_nat (N.of_nat i)) with i by lia.
  unfold Ilut.Output, Ilut.sparse_vector in *. rewrite Hrow.
  cbn [mbind result_bind mret result_ret]. rewrite N.ltb_irrefl, N.eqb_refl. reflexivity.
Qed.

Lemma rows_diagonal tag (d : list NumericT) n i :
  (∀ x, x ∈ d → num_leb (num_fabs x) num_zero = false) →
  (i + n = List.length d)%nat →
  rows static_cast (diagonal_matrix d) tag n (N.of_nat i) []
    (take i (diagonal_matrix d) ++ replicate n [])
  = ok ([], diagonal_matrix d).
Proof.
  intros Hnz. revert i. induction n as [|n IH]; intros i Hi; cbn [rows].
  - rewrite app_nil_r, take_ge; [done|]. unfold diagonal_matrix. rewrite length_imap. lia.
  - destruct (lookup_lt_is_Some_2 d i) as [x Hx]; [lia|].
    assert (List.length (take i (diagonal_matrix d)) = i) as Hlen.
    { rewrite length_take. unfold diagonal_matrix. rewrite length_imap. lia. }
    rewrite (eliminate_diagonal_row tag d i x); [|done| |].
    + cbn [mbind result_bind].
      replace (N.succ (N.of_nat i)) with (N.of_nat (S i)) by lia.
      rewrite insert_app_r_alt by lia. rewrite Hlen, Nat.sub_diag. cbn [replicate].
      cbn [insert list_insert].
      replace (take i (diagonal_matrix d) ++ [(N.of_nat i, x)] :: replicate n [])
        with (take (S i) (diagonal_matrix d) ++ replicate n []); [apply IH; lia|].
      rewrite (take_S_r _ _ [(N.of_nat i, x)]).
      * by rewrite <- app_assoc.
      * unfold diagonal_matrix. by rewrite list_lookup_imap, Hx.
    + apply Hnz. by eapply list_elem_of_lookup_2.
    + rewrite lookup_app_r by lia. rewrite Hlen, Nat.sub_diag. done.
Qed.

(** X11: [precondition], started on fresh rows as [init] starts it,
    returns a diagonal matrix none of whose entries has a magnitude [<= 0]
    as it is, whatever the tag. *)
Theorem ilut_diagonal_matrix tag (d : list NumericT) :
  (∀ x, x ∈ d → num_leb (num_fabs x) num_zero = false) →
  init static_cast (diagonal_matrix d) tag = ok (diagonal_matrix d).
Proof.
  intros Hnz. unfold init, precondition, LU_temp. cbn [size1 stl_matrix].
  assert (N.to_nat (N.of_nat (@List.length (@Ilut.sparse_vector NumericT)
                                (diagonal_matrix d))) = List.length d) as ->.
  { rewrite Nat2N.id. unfold diagonal_matrix. apply length_imap. }
  pose proof (rows_diagonal tag d (List.length d) 0 Hnz eq_refl) as Hrows.
  change (rows static_cast (diagonal_matrix d) tag (List.length d) 0 []
            (replicate (List.length d) []) = ok ([], diagonal_matrix d)) in Hrows.
  unfold Ilut.Output, Ilut.sparse_vector in *.
  by rewrite Hrows.
Qed.

(** *** The two overloads of [setup_w] *)

Lemma find_above col (w : sparse_vector) :
  Forall (fun e => (fst e < col)%N) w → find col w = None.
Proof.
  induction 1 as [|[k v] w Hk _ IH]; cbn; [done|].
  cbn in Hk. by destruct (N.eqb_spec k col); [lia|].
Qed.

Lemma assign_above col x (w : sparse_vector) :
  Forall (fun e => (fst e < col)%N) w → assign col x w = w ++ [(col, x)].
Proof.
  induction 1 as [|[k v] w Hk _ IH]; cbn; [done|]. cbn in Hk.
  destruct (N.ltb_spec col k); [lia|].
  destruct (N.eqb_spec col k); [lia|]. by rewrite IH.
Qed.

Lemma assign_last col x y (w : sparse_vector) :
  Forall (fun e => (fst e < col)%N) w →
  assign col y (w ++ [(col, x)]) = w ++ [(col, y)].
Proof.
  induction 1 as [|[k v] w Hk _ IH]; cbn.
  - by rewrite N.ltb_irrefl, N.eqb_refl.
  - cbn in Hk. destruct (N.ltb_spec col k); [lia|].
    destruct (N.eqb_spec col k); [lia|]. by rewrite IH.
Qed.

Lemma ascending_app_below (w : sparse_vector) e es :
  ascending (w ++ e :: es) → Forall (fun e' => (fst e' < fst e)%N) w.
Proof.
  induction w as [|e0 w IH]; cbn; [done|]. intros [Hhead Htail].
  constructor; [|by apply IH].
  apply Forall_app in Hhead as [_ Hhead]. by inversion Hhead.
Qed.

(** The buffers of [A] hold the columns and values of [entries] from
    position [b] on. *)
Definition stored_at (A : @compressed_matrix NumericT) (b : N) (entries : sparse_vector)
  : Prop :=
  ∀ n col x, entries !! n = Some (col, x) →
    csr_col_buffer A !! N.to_nat (b + N.of_nat n) = Some col ∧
    csr_elements A !! N.to_nat (b + N.of_nat n) = Some x.

Lemma setup_w_csr_loop_ascending A entries b row_norm (w : sparse_vector) :
  stored_at A b entries → ascending (w ++ entries) →
  setup_w_csr_loop A (List.length entries) b row_norm w
  = ok (foldl (fun row_norm e => num_add row_norm (num_mul (snd e) (snd e)))
          row_norm entries,
        w ++ entries).
Proof.
  revert b row_norm w. induction entries as [|[col x] entries IH];
    intros b row_norm w Hstored Hasc; cbn [List.length setup_w_csr_loop foldl].
  - by rewrite app_nil_r.
  - destruct (Hstored 0%nat col x eq_refl) as [Hcol Hx].
    rewrite N.add_0_r in Hcol, Hx. unfold subscript. rewrite Hx, Hcol.
    cbn [mbind result_bind snd].
    pose proof (ascending_app_below _ _ _ Hasc) as Hbelow. cbn [fst] in Hbelow.
    assert (assign col x (snd (index w col)) = w ++ [(col, x)]) as ->.
    { unfold index. rewrite (find_above _ _ Hbelow). cbn [snd].
      rewrite (assign_above _ _ _ Hbelow). by apply assign_last. }
    rewrite IH.
    + by rewrite <- app_assoc.
    + intros n col' x' Hn. destruct (Hstored (S n) col' x' Hn) as [? ?].
      by replace (N.succ b + N.of_nat n)%N with (b + N.of_nat (S n))%N by lia.
    + by rewrite <- app_assoc.
Qed.

(** How a [compressed_matrix] stores row [row]: the entries, in order,
    between the two offsets of the row buffer. *)
Definition csr_row (A : @compressed_matrix NumericT) (row : N) (entries : sparse_vector)
  : Prop :=
  ∃ b e,
    csr_row_buffer A !! N.to_nat row = Some b ∧
    csr_row_buffer A !! N.to_nat (row + 1) = Some e ∧
    N.to_nat (e - b) = List.length entries ∧
    stored_at A b entries.

Lemma setup_w_csr_row A row entries :
  csr_row A row entries → ascending entries →
  setup_w_csr A row [] = ok (num_sqrt (sum_squares entries), entries).
Proof.
  intros (b & e & Hb & He & Hlen & Hstored) Hasc.
  unfold setup_w_csr, subscript. rewrite Hb, He. cbn [mbind result_bind].
  rewrite Hlen, (setup_w_csr_loop_ascending A entries b num_zero []) by done.
  reflexivity.
Qed.

(** X12: on a row whose column indices are stored in ascending order, the
    overload of [setup_w] for [compressed_matrix] returns what the overload
    for [std::vector<std::map>] returns on the map of that row: the same
    [w] and the same norm, summed in the same order. *)
Theorem setup_w_overloads_agree (A : @compressed_matrix NumericT)
    (A' : list sparse_vector) row entries :
  csr_row A row entries → ascending entries →
  A' !! N.to_nat row = Some entries →
  setup_w A row [] = setup_w A' row [].
Proof.
  intros Hrow Hasc Hrow'. cbn [setup_w csr_matrix stl_matrix].
  rewrite (setup_w_csr_row A row entries Hrow Hasc).
  unfold setup_w_stl, subscript. unfold Ilut.sparse_vector in *. by rewrite Hrow'.
Qed.

Lemma eliminate_row_clears {M : Type} {matrix_ops : @SparseMatrixTypeT NumericT M}
    (A : M) tag i w (output : Output) w' output' :
  eliminate_row static_cast A tag i w output = ok (w', output') → w' = [].
Proof.
  unfold eliminate_row.
  destruct (setup_w A i w) as [[row_norm w1]| |]; cbn; try done.
  destruct (line3 _ _ _ _ _) as [[w2 output2]| |]; cbn; try done.
  destruct (line10 _ _ _ _) as [temp_map| |]; cbn; try done.
  destruct (write_row _ _ _ _ _) as [output3| |]; cbn; try done.
  by intros [= <- _].
Qed.

Lemma rows_same_setup_w {M M' : Type} {matrix_ops : @SparseMatrixTypeT NumericT M}
    {matrix_ops' : @SparseMatrixTypeT NumericT M'} (A : M) (A' : M') tag n i
    (output : Output) :
  (∀ j, (i ≤ j < i + N.of_nat n)%N → setup_w A j [] = setup_w A' j []) →
  rows static_cast A tag n i [] output = rows static_cast A' tag n i [] output.
Proof.
  revert i output. induction n as [|n IH]; intros i output Hsame; cbn [rows]; [done|].
  assert (eliminate_row static_cast A tag i [] output
          = eliminate_row static_cast A' tag i [] output) as Hrow.
  { unfold eliminate_row. rewrite (Hsame i) by lia. reflexivity. }
  rewrite <- Hrow.
  destruct (eliminate_row static_cast A tag i [] output) as [[w1 output1]| |] eqn:Hel;
    cbn; try done.
  apply eliminate_row_clears in Hel as ->. apply IH. intros j Hj. apply Hsame. lia.
Qed.

(** X13: [precondition] sees its matrix through [size1] and [setup_w]
    alone; so a [compressed_matrix] with ascending column indices in every
    row and the [std::vector<std::map>] with the same rows get the same
    factor, or the same exception. *)
Theorem ilut_compressed_matrix_agrees (A : @compressed_matrix NumericT)
    (A' : list sparse_vector) tag (output : Output) :
  csr_size1 A = N.of_nat (List.length A') →
  (∀ row entries, A' !! N.to_nat row = Some entries →
     csr_row A row entries ∧ ascending entries) →
  precondition static_cast A output tag = precondition static_cast A' output tag.
Proof.
  intros Hsize Hrows. unfold precondition. cbn [size1 csr_matrix stl_matrix].
  rewrite Hsize. f_equal. apply rows_same_setup_w. intros j Hj.
  destruct (lookup_lt_is_Some_2 A' (N.to_nat j)) as [entries Hentries];
    [unfold Ilut.sparse_vector in *; lia|].
  destruct (Hrows j entries Hentries) as [Hrow Hasc].
  cbn [setup_w csr_matrix stl_matrix].
  rewrite (setup_w_csr_row A j entries Hrow Hasc).
  unfold setup_w_stl, subscript. unfold Ilut.sparse_vector in *. by rewrite Hentries.
Qed.

(** *** The dropping rule keeps the largest entries *)

(** What lines 10-12 write, in order: the entries of [iter] that pass the
    tests on [written_L] and [written_U]. *)
Fixpoint written_entries (i p : N) (iter : list (NumericT * (N * NumericT)))
    (counters : written) : list (NumericT * (N * NumericT)) :=
  match iter with
  | [] => []
  | e :: iter' =>
    let j := fst (snd e) in
    if (j <? i)%N then
      if (written_L counters <? p)%N
      then e :: written_entries i p iter'
                  {| written_L := N.succ (written_L counters);
                     written_U := written_U counters |}
      else written_entries i p iter' counters
    else if (j =? i)%N then e :: written_entries i p iter' counters
    else
      if (written_U counters <? p)%N
      then e :: written_entries i p iter'
                  {| written_L := written_L counters;
                     written_U := N.succ (written_U counters) |}
      else written_entries i p iter' counters
  end.

Definition store_all (row : sparse_vector) (l : list (NumericT * (N * NumericT)))
  : sparse_vector :=
  foldl (fun row e => assign (fst (snd e)) (snd (snd e)) row) row l.

Lemma write_row_written i (tag : @ilut_tag double) iter counters
    (output output' : Output) row :
  write_row i tag iter counters output = ok output' →
  output !! N.to_nat i = Some row →
  output' !! N.to_nat i
  = Some (store_all row (written_entries i (get_entries_per_row tag) iter counters)).
Proof.
  revert counters output row.
  induction iter as [|[a [j v]] iter IH]; intros counters output row;
    cbn [write_row written_entries fst snd].
  - by intros [= <-].
  - destruct (subscript _ _) as [row_i| |] eqn:Hsub; cbn; try done.
    apply subscript_ok in Hsub. intros Hrun Hrow.
    pose proof (eq_trans (eq_sym Hsub) Hrow) as [= ->].
    assert ((<[N.to_nat i := assign j v row]> output) !! N.to_nat i
            = Some (assign j v row)) as Hstore.
    { apply list_lookup_insert_eq. by eapply lookup_lt_Some. }
    revert Hrun. repeat case_match; intros Hrun; cbn [store_all foldl fst snd];
      by eapply IH.
Qed.

Lemma written_lower i p iter counters :
  List.filter (fun e => (fst (snd e) <? i)%N) (written_entries i p iter counters)
  = take (N.to_nat (p - written_L counters))
      (List.filter (fun e : NumericT * (N * NumericT) => (fst (snd e) <? i)%N) iter).
Proof.
  revert counters. induction iter as [|[a [j v]] iter IH]; intros counters;
    cbn [written_entries List.filter fst snd]; [by rewrite take_nil|].
  destruct (N.ltb_spec j i) as [Hlt|Hge].
  - destruct (N.ltb_spec (written_L counters) p).
    + cbn [List.filter fst snd]. apply N.ltb_lt in Hlt as ->. rewrite IH. cbn [written_L].
      by replace (N.to_nat (p - written_L counters))
        with (S (N.to_nat (p - N.succ (written_L counters)))) by lia.
    + rewrite IH. by replace (N.to_nat (p - written_L counters)) with 0%nat by lia.
  - destruct (N.eqb_spec j i) as [->|Hne].
    + cbn [List.filter fst snd]. rewrite N.ltb_irrefl. apply IH.
    + destruct (N.ltb_spec (written_U counters) p).
      * cbn [List.filter fst snd]. apply N.ltb_ge in Hge as ->. by rewrite IH.
      * apply IH.
Qed.

Lemma written_upper i p iter counters :
  List.filter (fun e => (i <? fst (snd e))%N) (written_entries i p iter counters)
  = take (N.to_nat (p - written_U counters))
      (List.filter (fun e : NumericT * (N * NumericT) => (i <? fst (snd e))%N) iter).
Proof.
  revert counters. induction iter as [|[a [j v]] iter IH]; intros counters;
    cbn [written_entries List.filter fst snd]; [by rewrite take_nil|].
  destruct (N.ltb_spec j i) as [Hlt|Hge].
  - assert ((i <? j)%N = false) as Hij by (apply N.ltb_ge; lia).
    destruct (N.ltb_spec (written_L counters) p).
    + cbn [List.filter fst snd]. rewrite Hij. by rewrite IH.
    + rewrite Hij. apply IH.
  - destruct (N.eqb_spec j i) as [->|Hne].
    + cbn [List.filter fst snd]. rewrite N.ltb_irrefl. apply IH.
    + assert ((i <? j)%N = true) as Hij by (apply N.ltb_lt; lia).
      destruct (N.ltb_spec (written_U counters) p).
      * cbn [List.filter fst snd]. rewrite Hij, IH. cbn [written_U].
        by replace (N.to_nat (p - written_U counters))
          with (S (N.to_nat (p - N.succ (written_U counters)))) by lia.
      * rewrite Hij, IH. by replace (N.to_nat (p - written_U counters)) with 0%nat by lia.
Qed.

Lemma has_key_assign_inv k v j (m : sparse_vector) :
  has_key j (assign k v m) → j = k ∨ has_key j m.
Proof.
  unfold has_key. rewrite find_assign. destruct (N.eqb_spec j k); auto.
Qed.

Lemma has_key_store_all j (row : sparse_vector) l :
  has_key j (store_all row l) ↔ has_key j row ∨ ∃ a v, In (a, (j, v)) l.
Proof.
  unfold store_all. revert row. induction l as [|[a [k u]] l IH]; intros row; cbn [foldl].
  - split; [auto|]. by intros [?|(? & ? & [])].
  - rewrite IH. cbn [fst snd]. split.
    + intros [[->|Hkey]%has_key_assign_inv|(a' & v & Hin)].
      * right. exists a, u. by left.
      * by left.
      * right. exists a', v. by right.
    + intros [Hkey|(a' & v & [[= -> -> ->]|Hin])].
      * left. by apply has_key_assign.
      * left. apply has_key_assign_eq.
      * right. eauto.
Qed.

Lemma ascending_functional (w : sparse_vector) j v v' :
  ascending w → In (j, v) w → In (j, v') w → v = v'.
Proof.
  induction w as [|[k u] w IH]; cbn; [done|]. intros [Hhead Htail] Hv Hv'.
  assert (∀ x, In (j, x) w → (k < j)%N) as Hlater.
  { intros x Hx. by apply (proj1 (List.Forall_forall _ _) Hhead) in Hx. }
  destruct Hv as [Hv|Hv], Hv' as [Hv'|Hv'].
  - congruence.
  - injection Hv as -> ->. apply Hlater in Hv'. lia.
  - injection Hv' as -> ->. apply Hlater in Hv. lia.
  - by apply IH.
Qed.

(** The temporary of line 10 holds the entries of [w] that pass the test,
    each under its magnitude. *)
Lemma line10_entries i tau_i (w : sparse_vector) temp_map temp_map' :
  line10 i tau_i w temp_map = ok temp_map' →
  ∀ e, In e temp_map' ↔
    In e temp_map ∨
    In (snd e) w ∧ fst e = num_fabs (snd (snd e)) ∧
    num_ltb tau_i (num_fabs (snd (snd e))) || (fst (snd e) =? i)%N = true.
Proof.
  revert temp_map. induction w as [|[k v] w IH]; intros temp_map; cbn [line10].
  - intros [= <-] e. cbn. tauto.
  - destruct (num_ltb tau_i (num_fabs v) || (k =? i)%N) eqn:Hkeep.
    + case_match; [done|]. intros Hrun e. rewrite (IH _ Hrun e), In_multimap_insert.
      cbn [In]. split.
      * intros [[->|Hin]|(Hin & Ha & Hc)]; cbn [fst snd]; auto.
      * intros [Hin|([Hin|Hin] & Ha & Hc)]; auto.
        left. left. destruct e as [a [k' v']]. cbn in *. congruence.
    + intros Hrun e. rewrite (IH _ Hrun e). cbn [In]. split.
      * intros [Hin|(Hin & Ha & Hc)]; auto.
      * intros [Hin|([Hin|Hin] & Ha & Hc)]; auto.
        destruct e as [a [k' v']]. cbn in *. congruence.
Qed.

Section Order.
(** The comparison of a floating-point type: [<] is asymmetric and
    transitive (a NaN compares false with everything). *)
Hypothesis ltb_asym : ∀ x y : NumericT, num_ltb x y = true → num_ltb y x = false.
Hypothesis ltb_trans : ∀ x y z : NumericT,
  num_ltb x y = true → num_ltb y z = true → num_ltb x z = true.

(** [<] is a strict weak ordering of [keys], as [std::multimap] requires
    of the keys it holds: next to the two laws above, "not less" is
    transitive among them.  Numbers without a NaN are so ordered; a NaN
    next to two different numbers is not. *)
Definition weakly_ordered (keys : list NumericT) : Prop :=
  ∀ x y z, In x keys → In y keys → In z keys →
    num_ltb x y = false → num_ltb y z = false → num_ltb x z = false.

(** No later entry has a smaller key; no later entry has a greater key. *)
Fixpoint nondecreasing (m : list (NumericT * (N * NumericT))) : Prop :=
  match m with
  | [] => True
  | e :: m' => Forall (fun e' => num_ltb (fst e') (fst e) = false) m' ∧ nondecreasing m'
  end.

Fixpoint nonincreasing (m : list (NumericT * (N * NumericT))) : Prop :=
  match m with
  | [] => True
  | e :: m' => Forall (fun e' => num_ltb (fst e) (fst e') = false) m' ∧ nonincreasing m'
  end.

Lemma multimap_insert_nondecreasing x v m :
  nondecreasing m → nondecreasing (multimap_insert x v m).
Proof.
  induction m as [|[y u] m IH]; cbn [multimap_insert nondecreasing]; [by split|].
  intros [Hhead Htail]. destruct (num_ltb x y) eqn:Hxy; cbn [nondecreasing].
  - split; [|by split]. constructor; [by apply ltb_asym|].
    eapply Forall_impl; [exact Hhead|]. cbn. intros e He.
    destruct (num_ltb (fst e) x) eqn:Hex; [|done].
    by rewrite (ltb_trans _ _ _ Hex Hxy) in He.
  - split; [|by apply IH]. apply List.Forall_forall.
    intros e [->|He]%In_multimap_insert; [done|].
    by apply (proj1 (List.Forall_forall _ _) Hhead).
Qed.

Lemma line10_nondecreasing i tau_i (w : sparse_vector) temp_map temp_map' :
  line10 i tau_i w temp_map = ok temp_map' →
  nondecreasing temp_map → nondecreasing temp_map'.
Proof.
  revert temp_map. induction w as [|[k v] w IH]; intros temp_map; cbn [line10].
  - by intros [= <-].
  - repeat case_match; try done; intros Hrun Hs; eapply IH; try exact Hrun; try done.
    by apply multimap_insert_nondecreasing.
Qed.

Lemma nonincreasing_snoc m e :
  nonincreasing m → Forall (fun e' => num_ltb (fst e') (fst e) = false) m →
  nonincreasing (m ++ [e]).
Proof.
  induction m as [|e0 m IH]; cbn [app nonincreasing]; [by split|].
  intros [Hhead Htail] Hall. inversion Hall as [|? ? He0 Hrest]; subst.
  split; [|by apply IH]. apply Forall_app. split; [done|]. by constructor.
Qed.

Lemma rev_nonincreasing m : nondecreasing m → nonincreasing (rev m).
Proof.
  induction m as [|e m IH]; cbn [rev nondecreasing]; [done|]. intros [Hhead Htail].
  apply nonincreasing_snoc; [by apply IH|].
  apply List.Forall_forall. intros e' He'. apply in_rev in He'.
  by apply (proj1 (List.Forall_forall _ _) Hhead).
Qed.

Lemma filter_nonincreasing f m : nonincreasing m → nonincreasing (List.filter f m).
Proof.
  induction m as [|e m IH]; cbn [List.filter nonincreasing]; [done|].
  intros [Hhead Htail]. destruct (f e); cbn [nonincreasing]; [|by apply IH].
  split; [|by apply IH]. apply List.Forall_forall. intros e' [He' _]%filter_In.
  by apply (proj1 (List.Forall_forall _ _) Hhead).
Qed.

(** In a sorted list, nothing among the first [n] is smaller than
    anything after them. *)
Lemma nonincreasing_take_drop n m e e' :
  nonincreasing m → In e (take n m) → In e' (drop n m) →
  num_ltb (fst e) (fst e') = false.
Proof.
  revert n. induction m as [|e0 m IH]; intros n; [by rewrite take_nil|].
  destruct n as [|n]; cbn [take drop nonincreasing]; [by intros _ []|].
  intros [Hhead Htail] [->|He] He'.
  - apply (proj1 (List.Forall_forall _ _) Hhead). revert He'.
    rewrite <- (take_drop n m) at 2. intros He'. apply in_or_app. by right.
  - by eapply IH.
Qed.

(** X14: lines 10-12 keep the largest.  When [<] is a strict weak
    ordering of the magnitudes that line 10 puts into [temp_map] (no NaN
    among different numbers), then of the entries of [w] on one side of
    the diagonal of row [i], those that end up in the output row are the
    largest in magnitude: no entry that is left out is greater than one
    that is written. *)
Theorem ilut_keeps_largest i tau_i (tag : @ilut_tag double) (w : sparse_vector)
    temp_map (output output' : Output) row' j v j' v' :
  ascending w →
  line10 i tau_i w [] = ok temp_map →
  weakly_ordered (map fst temp_map) →
  output !! N.to_nat i = Some [] →
  write_row i tag (rev temp_map) {| written_L := 0; written_U := 0 |} output
  = ok output' →
  output' !! N.to_nat i = Some row' →
  In (j, v) w → In (j', v') w →
  (j < i ∧ j' < i)%N ∨ (i < j ∧ i < j')%N →
  has_key j' row' → ¬ has_key j row' →
  num_ltb (num_fabs v') (num_fabs v) = false.
Proof.
  intros Hasc Hline10 _ Hempty Hwrite Hrow' Hv Hv' Hside Hkept Hdropped.
  pose proof (line10_entries _ _ _ _ _ Hline10) as Hentries.
  pose proof (write_row_written _ _ _ _ _ _ _ Hwrite Hempty) as Hrow.
  pose proof (eq_trans (eq_sym Hrow') Hrow) as [= ->]. clear Hrow.
  set (p := get_entries_per_row tag) in *.
  set (iter := rev temp_map) in *.
  set (counters := {| written_L := 0; written_U := 0 |}) in *.
  assert (nonincreasing iter) as Hsorted.
  { apply rev_nonincreasing. eapply line10_nondecreasing; [exact Hline10|done]. }
  assert (∀ e, In e (written_entries i p iter counters) → In e iter) as Hsub.
  { clear. generalize counters. induction iter as [|e0 iter IH]; intros c e;
      cbn [written_entries]; [done|].
    repeat case_match; cbn [In]; intros Hmem;
      first [ right; by eapply IH
            | destruct Hmem as [->|Hmem]; [by left|right; by eapply IH] ]. }
  assert (∀ e, In e iter →
            In (snd e) w ∧ fst e = num_fabs (snd (snd e)) ∧
            num_ltb tau_i (num_fabs (snd (snd e))) || (fst (snd e) =? i)%N = true)
    as Hiter.
  { intros e He. apply in_rev in He. apply Hentries in He as [[]|He]. exact He. }
  (* the entry that is kept *)
  apply has_key_store_all in Hkept as [[? [=]]|(a' & v'' & Hin')].
  pose proof (Hiter _ (Hsub _ Hin')) as (Hw' & Ha' & Hc'). cbn [fst snd] in *.
  pose proof (ascending_functional w j' v'' v' Hasc Hw' Hv') as ->. subst a'.
  (* the entry that is dropped *)
  assert (∀ a, ¬ In (a, (j, v)) (written_entries i p iter counters)) as Hout.
  { intros a Hin. apply Hdropped, has_key_store_all. right. eauto. }
  destruct (num_ltb tau_i (num_fabs v) || (j =? i)%N) eqn:Hc.
  - assert (In (num_fabs v, (j, v)) iter) as Hin.
    { unfold iter. rewrite <- in_rev. apply Hentries. right. cbn [fst snd]. auto. }
    destruct Hside as [[Hj Hj']|[Hj Hj']].
    + pose proof (written_lower i p iter counters) as Hlower.
      apply (nonincreasing_take_drop (N.to_nat (p - written_L counters))
               (List.filter (fun e => (fst (snd e) <? i)%N) iter)
               (num_fabs v', (j', v')) (num_fabs v, (j, v))).
      * by apply filter_nonincreasing.
      * rewrite <- Hlower. apply filter_In. split; [done|]. cbn. by apply N.ltb_lt.
      * assert (In (num_fabs v, (j, v))
                  (List.filter (fun e => (fst (snd e) <? i)%N) iter)) as Hfil.
        { apply filter_In. split; [done|]. cbn. by apply N.ltb_lt. }
        rewrite <- (take_drop (N.to_nat (p - written_L counters))) in Hfil.
        apply in_app_or in Hfil as [Hfil|Hfil]; [|done].
        rewrite <- Hlower in Hfil. apply filter_In in Hfil as [Hfil _]. by apply Hout in Hfil.
    + pose proof (written_upper i p iter counters) as Hupper.
      apply (nonincreasing_take_drop (N.to_nat (p - written_U counters))
               (List.filter (fun e => (i <? fst (snd e))%N) iter)
               (num_fabs v', (j', v')) (num_fabs v, (j, v))).
      * by apply filter_nonincreasing.
      * rewrite <- Hupper. apply filter_In. split; [done|]. cbn. by apply N.ltb_lt.
      * assert (In (num_fabs v, (j, v))
                  (List.filter (fun e => (i <? fst (snd e))%N) iter)) as Hfil.
        { apply filter_In. split; [done|]. cbn. by apply N.ltb_lt. }
        rewrite <- (take_drop (N.to_nat (p - written_U counters))) in Hfil.
        apply in_app_or in Hfil as [Hfil|Hfil]; [|done].
        rewrite <- Hupper in Hfil. apply filter_In in Hfil as [Hfil _]. by apply Hout in Hfil.
  - (* below the threshold *)
    apply orb_false_iff in Hc as [Htau _].
    assert ((j' =? i)%N = false) as Hne by (apply N.eqb_neq; lia).
    rewrite Hne, orb_false_r in Hc'.
    destruct (num_ltb (num_fabs v') (num_fabs v)) eqn:Hlt; [|done].
    by rewrite (ltb_trans _ _ _ Hc' Hlt) in Htau.
Qed.
End Order.
End IlutFurther.

(** ** The further statements at sample inputs *)
Section AutotuneFurtherSamples.
Import Blas3.

(** A request for device 5 on a machine with one device. *)
Lemma main_no_such_device_witness :
  Sample.main ["blas3"; "5"; "0"; "float"]
  = {| cout := []; cerr := []; tuning := []; result := returned 0 |}.
Proof.
  unfold Sample.main.
  apply (main_no_such_device Sample.benchmark Sample.RAND_MAX Sample.srand_time
           (fun _ w => w) (fun _ w => w) ["blas3"; "5"; "0"; "float"] [[Sample.gpu]] tt
           "5" 5%Z "0" 0%Z "float"); try reflexivity.
  vm_compute. discriminate.
Defined.

(** Layout 1 and a scalar type that is not supported: the header and the
    step line are printed all the same. *)
Lemma main_header_witness :
  cout (Sample.main ["blas3"; "0"; "1"; "half"])
  = [ "-------------------";
      "Recording timings for : gpu";
      "Vendor ID : 4098";
      "Matrix - Matrix Multiplication ";
      "-------------------";
      " Scalartype : half";
      "-------------------";
      "====== Step 3 : TA =====" ].
Proof.
  unfold Sample.main.
  rewrite (main_header Sample.benchmark Sample.RAND_MAX Sample.srand_time
             (fun _ w => w) (fun _ w => w) ["blas3"; "0"; "1"; "half"] [[Sample.gpu]] tt
             "0" 0%Z "1" 1%Z "half" Sample.gpu eq_refl eq_refl eq_refl eq_refl eq_refl
             eq_refl).
  reflexivity.
Defined.

(** The first point of the parameter space of [run_autotune]. *)
Definition first_point : gmap string N :=
  list_to_map (map (fun p => (param_name p, param_min p)) conf).

Lemma create_profile_within_conf_witness :
  within_conf first_point ∧
  ∃ prof, create_profile first_point = inr prof ∧
    lhs_storage prof = true ∧ rhs_storage prof = false ∧ unroll prof = 1%N.
Proof.
  assert (within_conf first_point) as Hin.
  { intros p Hp. exists (param_min p).
    repeat (apply elem_of_cons in Hp as [->|Hp]);
      try (split; [vm_compute; reflexivity|cbn; lia]).
    by apply elem_of_nil in Hp. }
  split; [exact Hin|].
  destruct (create_profile_within_conf first_point Hin)
    as (prof & Hprof & Hl & Hr & Hu & _).
  exists prof. repeat split; assumption.
Defined.

End AutotuneFurtherSamples.

Section GeneratorFurtherSamples.
Import Generator.

(** The traversal of [Repeat(n) { s = t; }] opens one loop. *)
Lemma loop_counter_counts_opened_loops_witness :
  nested_repeats_counter
    (functor_for_each (fun T _ => Sample.length_of T) (fun T s => Sample.helper s T)
       (Sample.helper "") Sample.is_compound Sample.expressions
       {| generated_code := ""; nested_repeats_counter := 0; helpers := 0%nat |})
  = 1%N.
Proof.
  rewrite (loop_counter_counts_opened_loops (fun T _ => Sample.length_of T)
             (fun T s => Sample.helper s T) (Sample.helper "") Sample.is_compound
             Sample.expressions
             {| generated_code := ""; nested_repeats_counter := 0; helpers := 0%nat |}).
  - reflexivity.
  - reflexivity.
Defined.

End GeneratorFurtherSamples.

Section IlutFurtherSamples.
Import Ilut.

(** Two calls with arguments that are not positive change nothing. *)
Lemma ilut_tag_stays_positive_witness :
  get_entries_per_row
    (foldl call Sample.tag [call_set_entries_per_row 0; call_set_drop_tolerance (Sample.q (-1))])
  = 20%N ∧
  (0 < get_entries_per_row
         (foldl call Sample.tag
            [call_set_entries_per_row 0; call_set_drop_tolerance (Sample.q (-1))]))%N.
Proof.
  split; [reflexivity|].
  apply (ilut_tag_stays_positive Sample.tag
           [call_set_entries_per_row 0; call_set_drop_tolerance (Sample.q (-1))]).
  - reflexivity.
  - vm_compute. reflexivity.
Defined.

(** The factor of [[2 1] [1 3]]. *)
Lemma ilut_factor_row_length_witness :
  ∃ output,
    init (fun x : Qc => x) Sample.regular Sample.tag = ok output ∧
    ∀ i row, output !! i = Some row →
      ascending row ∧ (N.of_nat (List.length row) ≤ 2 * 20 + 1)%N.
Proof.
  assert (∃ output, init (fun x : Qc => x) Sample.regular Sample.tag = ok output)
    as [output Hrun] by (eexists; vm_compute; reflexivity).
  exists output. split; [exact Hrun|].
  exact (ilut_factor_row_length (fun x : Qc => x) Sample.regular Sample.tag output Hrun).
Defined.


(** The matrix with 2 and 3 on its diagonal is its own factor. *)
Lemma ilut_diagonal_matrix_witness :
  init (fun x : Qc => x) [[(0%N, Sample.q 2)]; [(1%N, Sample.q 3)]] Sample.tag
  = ok [[(0%N, Sample.q 2)]; [(1%N, Sample.q 3)]].
Proof.
  apply (ilut_diagonal_matrix (fun x : Qc => x) Sample.tag [Sample.q 2; Sample.q 3]).
  intros x Hx. repeat (apply elem_of_cons in Hx as [->|Hx]);
    try (vm_compute; reflexivity).
  by apply elem_of_nil in Hx.
Defined.

(** [[2 1] [1 3]] as a [compressed_matrix]. *)
Definition regular_csr : @compressed_matrix Qc :=
  {| csr_size1 := 2;
     csr_elements := [Sample.q 2; Sample.q 1; Sample.q 1; Sample.q 3];
     csr_row_buffer := [0; 2; 4]%N;
     csr_col_buffer := [0; 1; 0; 1]%N |}.

Lemma regular_csr_rows row entries :
  Sample.regular !! N.to_nat row = Some entries →
  csr_row regular_csr row entries ∧ ascending entries.
Proof.
  intros Hrow.
  assert (row = 0 ∨ row = 1)%N as [-> | ->].
  { apply lookup_lt_Some in Hrow. cbn in Hrow. lia. }
  - injection Hrow as <-. split.
    + exists 0%N, 2%N. do 3 (split; [reflexivity|]).
      intros n col x Hn. destruct n as [|[|n]]; cbn in Hn;
        [injection Hn as <- <-; by split..|discriminate].
    + cbn. repeat constructor; cbn; lia.
  - injection Hrow as <-. split.
    + exists 2%N, 4%N. do 3 (split; [reflexivity|]).
      intros n col x Hn. destruct n as [|[|n]]; cbn in Hn;
        [injection Hn as <- <-; by split..|discriminate].
    + cbn. repeat constructor; cbn; lia.
Qed.

(** Row 1 of the two representations. *)
Lemma setup_w_overloads_agree_witness :
  setup_w regular_csr 1 [] = setup_w Sample.regular 1 [].
Proof.
  apply (setup_w_overloads_agree regular_csr Sample.regular 1
           [(0%N, Sample.q 1); (1%N, Sample.q 3)]).
  - apply (regular_csr_rows 1). reflexivity.
  - apply (regular_csr_rows 1). reflexivity.
  - reflexivity.
Defined.

(** The factorisations of the two representations. *)
Lemma ilut_compressed_matrix_agrees_witness :
  precondition (fun x : Qc => x) regular_csr (LU_temp 2) Sample.tag
  = Sample.precondition Sample.regular.
Proof.
  unfold Sample.precondition.
  apply (ilut_compressed_matrix_agrees (fun x : Qc => x) regular_csr Sample.regular
           Sample.tag (LU_temp 2)).
  - reflexivity.
  - apply regular_csr_rows.
Defined.

(** The order of the rationals. *)
Lemma Qc_ltb_asym (x y : Qc) : num_ltb x y = true → num_ltb y x = false.
Proof.
  cbn. intros Hxy%bool_decide_eq_true. apply bool_decide_eq_false.
  intros Hyx. exact (Qclt_not_le _ _ Hxy (Qclt_le_weak _ _ Hyx)).
Qed.

Lemma Qc_weakly_ordered (keys : list Qc) : weakly_ordered keys.
Proof.
  intros x y z _ _ _. cbn.
  intros Hxy%bool_decide_eq_false Hyz%bool_decide_eq_false.
  apply bool_decide_eq_false. intros Hxz.
  apply Qcnot_lt_le in Hxy, Hyz.
  exact (Qclt_not_le _ _ Hxz (Qcle_trans _ _ _ Hyz Hxy)).
Qed.

Lemma Qc_ltb_trans (x y z : Qc) :
  num_ltb x y = true → num_ltb y z = true → num_ltb x z = true.
Proof.
  cbn. intros Hxy%bool_decide_eq_true Hyz%bool_decide_eq_true.
  apply bool_decide_eq_true. by eapply Qclt_trans.
Qed.

(** One entry above the diagonal can stay: of 1 in column 1 and 3 in
    column 2, the 3 is written and the 1 is left out. *)
Definition one_per_row : @ilut_tag Qc :=
  {| entries_per_row_ := 1; drop_tolerance_ := Q2Qc (1 # 10000);
     use_level_scheduling_ := false |}.

Lemma ilut_keeps_largest_witness :
  ∃ temp_map output',
    line10 0 (Sample.q 0) [(0%N, Sample.q 5); (1%N, Sample.q 1); (2%N, Sample.q 3)] []
    = ok temp_map ∧
    write_row 0 one_per_row (rev temp_map) {| written_L := 0; written_U := 0 |} [[]]
    = ok output' ∧
    output' = [[(0%N, Sample.q 5); (2%N, Sample.q 3)]] ∧
    num_ltb (num_fabs (Sample.q 3)) (num_fabs (Sample.q 1)) = false.
Proof.
  eexists _, _. split; [vm_compute; reflexivity|].
  split; [vm_compute; reflexivity|]. split; [reflexivity|].
  eapply (ilut_keeps_largest Qc_ltb_asym Qc_ltb_trans 0 (Sample.q 0) one_per_row
            [(0%N, Sample.q 5); (1%N, Sample.q 1); (2%N, Sample.q 3)] _ [[]] _
            [(0%N, Sample.q 5); (2%N, Sample.q 3)] 1 (Sample.q 1) 2 (Sample.q 3)).
  - cbn. repeat constructor; cbn; lia.
  - vm_compute. reflexivity.
  - apply Qc_weakly_ordered.
  - reflexivity.
  - vm_compute. reflexivity.
  - reflexivity.
  - cbn. tauto.
  - cbn. tauto.
  - right. lia.
  - vm_compute. eauto.
  - vm_compute. intros [x Hx]. discriminate Hx.
Defined.
End IlutFurtherSamples.

(** *** Rows are written once, in order *)
Section IlutRowOrder.
Import Ilut.
Context {double NumericT : Type} {numeric_ops : Numeric NumericT}.
Variable static_cast : double → NumericT.

Local Abbreviation sparse_vector := (list (N * NumericT)).
Local Abbreviation Output := (list (list (N * NumericT))).

(** Zero compares [<=] to itself, as it does in every floating-point
    format. *)
Hypothesis leb_zero : num_leb (num_zero : NumericT) num_zero = true.

(** A pass through the body of line 3 that does not throw has found the
    diagonal entry of row [k] in place: reading it changed nothing. *)
Lemma line3_body_output i tau_i k (w : sparse_vector) (output : Output) w' output' :
  line3_body i tau_i k w output = ok (w', output') → output' = output.
Proof.
  unfold line3_body.
  destruct (subscript _ _) as [row_k| |] eqn:Hrow; cbn; try done.
  apply subscript_ok in Hrow. unfold index.
  destruct (find k row_k) as [a_kk|] eqn:Hfind; cbv beta iota zeta.
  - pose proof (list_insert_id output (N.to_nat k) row_k Hrow) as Hid.
    destruct (is_zero a_kk); [done|].
    destruct (find k w); [|done]. by case_match; intros [= _ <-].
  - unfold is_zero. by rewrite leb_zero.
Qed.

Lemma line3_output i tau_i w_k (w : sparse_vector) (output : Output) w' output' :
  line3 i tau_i w_k w output = ok (w', output') → output' = output.
Proof.
  intros Hrun.
  apply (line3_invariant (fun _ output1 => output1 = output) i tau_i)
    with (w_k := w_k) (w := w) (output := output) (w' := w'); [|done|done].
  intros k w1 output1 w2 output2 _ -> Hbody. by eapply line3_body_output.
Qed.

Lemma write_row_other i (tag : @ilut_tag double) iter counters (output output' : Output) :
  write_row i tag iter counters output = ok output' →
  ∀ r, r ≠ N.to_nat i → output' !! r = output !! r.
Proof.
  revert counters output.
  induction iter as [|[a [j v]] iter IH]; intros counters output; cbn [write_row].
  - by intros [= <-].
  - destruct (subscript _ _) as [row_i| |] eqn:Hsub; cbn; try done.
    intros Hrun r Hr.
    assert ((<[N.to_nat i := assign j v row_i]> output) !! r = output !! r) as Hstore
      by by apply list_lookup_insert_ne.
    revert Hrun. repeat case_match; intros Hrun;
      first [ by eapply IH | by rewrite (IH _ _ Hrun r Hr) ].
Qed.

Lemma eliminate_row_other {M : Type} {matrix_ops : @SparseMatrixTypeT NumericT M}
    (A : M) tag i w (output : Output) w' output' :
  eliminate_row static_cast A tag i w output = ok (w', output') →
  ∀ r, r ≠ N.to_nat i → output' !! r = output !! r.
Proof.
  unfold eliminate_row.
  destruct (setup_w A i w) as [[row_norm w1]| |]; cbn; try done.
  destruct (line3 _ _ _ _ _) as [[w2 output2]| |] eqn:Hline3; cbn; try done.
  apply line3_output in Hline3 as ->.
  destruct (line10 _ _ _ _) as [temp_map| |]; cbn; try done.
  destruct (write_row _ _ _ _ _) as [output3| |] eqn:Hwrite; cbn; try done.
  intros [= _ <-]. by eapply write_row_other.
Qed.

Lemma rows_other {M : Type} {matrix_ops : @SparseMatrixTypeT NumericT M}
    (A : M) tag n i w (output : Output) w' output' :
  rows static_cast A tag n i w output = ok (w', output') →
  ∀ r, (r < N.to_nat i ∨ N.to_nat i + n ≤ r)%nat → output' !! r = output !! r.
Proof.
  revert i w output. induction n as [|n IH]; intros i w output; cbn [rows].
  - by intros [= _ <-].
  - destruct (eliminate_row _ _ _ _ _ _) as [[w1 output1]| |] eqn:Hrow; cbn; try done.
    intros Hrun r Hr.
    rewrite (IH _ _ _ Hrun r) by lia.
    apply (eliminate_row_other _ _ _ _ _ _ _ Hrow). lia.
Qed.

(** The first [n] iterations of a run that returns. *)
Lemma rows_prefix {M : Type} {matrix_ops : @SparseMatrixTypeT NumericT M}
    (A : M) tag n (output output' : Output) :
  (n ≤ N.to_nat (size1 A))%nat →
  precondition static_cast A output tag = ok output' →
  ∃ w_n output_n,
    rows static_cast A tag n 0 [] output = ok (w_n, output_n) ∧
    ∀ r, (r < n)%nat → output' !! r = output_n !! r.
Proof.
  intros Hn. unfold precondition.
  replace (N.to_nat (size1 A)) with (n + (N.to_nat (size1 A) - n))%nat by lia.
  rewrite rows_app.
  destruct (rows static_cast A tag n 0 [] output) as [[w_n output_n]| |]; cbn; try done.
  destruct (rows _ _ _ _ _ _ _) as [[w1 output1]| |] eqn:Hrest; cbn; try done.
  intros [= <-]. exists w_n, output_n. split; [done|].
  intros r Hr. apply (rows_other _ _ _ _ _ _ _ _ Hrest). lia.
Qed.

(** X15: a row of the factor is written once.  When [precondition]
    returns, row [r] of its result is what the first [n] iterations of
    the loop over the rows had left there, for every [n > r]: the
    iterations for the later rows read the earlier rows and do not change
    them. *)
Theorem ilut_rows_final {M : Type} {matrix_ops : @SparseMatrixTypeT NumericT M}
    (A : M) tag n (output output' : Output) w_n output_n :
  (n ≤ N.to_nat (size1 A))%nat →
  precondition static_cast A output tag = ok output' →
  rows static_cast A tag n 0 [] output = ok (w_n, output_n) →
  ∀ r, (r < n)%nat → output' !! r = output_n !! r.
Proof.
  intros Hn Hrun Hrows.
  destruct (rows_prefix A tag n output output' Hn Hrun) as (w & out & Hrows' & Hsame).
  rewrite Hrows in Hrows'. by injection Hrows' as _ <-.
Qed.

(** X16: the first [n] rows of the factor depend on the first [n] rows of
    the matrix alone.  Two matrices (of either representation) whose first
    [n] rows [setup_w] reads alike have, when both factorisations return,
    factors with the same first [n] rows. *)
Theorem ilut_factor_causal {M M' : Type}
    {matrix_ops : @SparseMatrixTypeT NumericT M}
    {matrix_ops' : @SparseMatrixTypeT NumericT M'}
    (A : M) (A' : M') tag n (output factor factor' : Output) :
  (n ≤ N.to_nat (size1 A))%nat → (n ≤ N.to_nat (size1 A'))%nat →
  (∀ j, (j < N.of_nat n)%N → setup_w A j [] = setup_w A' j []) →
  precondition static_cast A output tag = ok factor →
  precondition static_cast A' output tag = ok factor' →
  ∀ r, (r < n)%nat → factor !! r = factor' !! r.
Proof.
  intros Hn Hn' Hsame Hrun Hrun' r Hr.
  destruct (rows_prefix A tag n output factor Hn Hrun) as (w & out & Hrows & ->); [|done].
  destruct (rows_prefix A' tag n output factor' Hn' Hrun') as (w' & out' & Hrows' & ->);
    [|done].
  rewrite (rows_same_setup_w static_cast A A' tag n 0 output) in Hrows
    by (intros j Hj; apply Hsame; lia).
  rewrite Hrows in Hrows'. by injection Hrows' as _ <-.
Qed.
End IlutRowOrder.

Section IlutRowOrderSamples.
Import Ilut.

(** [[2 1] [1 3]] and [[2 1] [5 7]] have row 0 in common. *)
Definition other_row : list (list (N * Qc)) :=
  [ [(0%N, Sample.q 2); (1%N, Sample.q 1)]; [(0%N, Sample.q 5); (1%N, Sample.q 7)] ].

Lemma Qc_leb_zero : num_leb (num_zero : Qc) num_zero = true.
Proof. vm_compute. reflexivity. Qed.

(** Row 0 of the factor of [[2 1] [1 3]] is there after one iteration. *)
Lemma ilut_rows_final_witness :
  ∃ factor,
    Sample.precondition Sample.regular = ok factor ∧
    factor !! 0%nat = Some [(0%N, Sample.q 2); (1%N, Sample.q 1)].
Proof.
  assert (∃ factor, Sample.precondition Sample.regular = ok factor) as [factor Hrun]
    by (eexists; vm_compute; reflexivity).
  exists factor. split; [exact Hrun|].
  rewrite (ilut_rows_final (fun x : Qc => x) Qc_leb_zero Sample.regular Sample.tag 1
             (LU_temp 2) factor [] [[(0%N, Sample.q 2); (1%N, Sample.q 1)]; []]).
  - reflexivity.
  - cbn. lia.
  - exact Hrun.
  - vm_compute. reflexivity.
  - lia.
Defined.

(** The factors of the two matrices have row 0 in common. *)
Lemma ilut_factor_causal_witness :
  ∃ factor factor',
    Sample.precondition Sample.regular = ok factor ∧
    Sample.precondition other_row = ok factor' ∧
    factor !! 0%nat = factor' !! 0%nat.
Proof.
  assert (∃ factor, Sample.precondition Sample.regular = ok factor) as [factor Hrun]
    by (eexists; vm_compute; reflexivity).
  assert (∃ factor', Sample.precondition other_row = ok factor') as [factor' Hrun']
    by (eexists; vm_compute; reflexivity).
  exists factor, factor'. split; [exact Hrun|]. split; [exact Hrun'|].
  apply (ilut_factor_causal (fun x : Qc => x) Qc_leb_zero Sample.regular other_row Sample.tag 1
           (LU_temp 2) factor factor').
  - cbn. lia.
  - cbn. lia.
  - intros j Hj. assert (j = 0%N) as -> by lia. reflexivity.
  - exact Hrun.
  - exact Hrun'.
  - lia.
Defined.
End IlutRowOrderSamples.
